(** * autotranslate: the INI reconstructor, the JSON walker and the orchestrator

    A shallow embedding of [src/index.ts].  Every definition below carries the
    name of the source function (or of the built-in) it stands for.

    Modelling choices, all of them visible in the definitions:
    - a character is a code unit below 256 ([ascii]); text is [string];
    - a plain object used as a dictionary is a finite map ([gmap]) when only
      looked up, and an association list in enumeration order when its key
      order is observable (the JSON walker);
    - the assignment [o[k] = v] on an object literal goes through the
      [__proto__] accessor of [Object.prototype] when [k] is that name: no own
      property appears; a read of a name the object does not own falls back
      on [Object.prototype];
    - effects (console output, HTTP requests, the file written) are a trace
      of events next to the outcome, and a rejected promise or a thrown
      exception is the [Throw] outcome;
    - the file system, the HTTP transport and [JSON.parse]/[JSON.stringify]
      are an environment record: within one run the same request gets the
      same answer. *)

From Stdlib Require Import Ascii ZArith NArith Lia.
From stdpp Require Import base option list strings gmap.

Local Open Scope Z_scope.

(** ** Text *)

Module Text.

(** [WhiteSpace] and [LineTerminator] of the language, below code unit 256:
    TAB, LF, VT, FF, CR, SPACE and NBSP.  This is what [trim] strips. *)
Definition is_white (c : ascii) : bool :=
  match c with
  | "009" | "010" | "011" | "012" | "013" | " " | "160" => true
  | _ => false
  end%char.

(** The characters that [.] of a regular expression refuses. *)
Definition is_line_terminator (c : ascii) : bool :=
  match c with
  | "010" | "013" => true
  | _ => false
  end%char.

(** Truthiness of a string: the empty string is the only falsy one. *)
Definition truthy (s : string) : bool :=
  match s with
  | EmptyString => false
  | String _ _ => true
  end.

Fixpoint trimStart (s : string) : string :=
  match s with
  | EmptyString => EmptyString
  | String c s' => if is_white c then trimStart s' else s
  end.

Fixpoint trimEnd (s : string) : string :=
  match s with
  | EmptyString => EmptyString
  | String c s' =>
      let r := trimEnd s' in
      if is_white c && negb (truthy r) then EmptyString else String c r
  end.

Definition trim (s : string) : string := trimEnd (trimStart s).

(** The line feed, as a string. *)
Definition nl : string := String "010" EmptyString.

Definition startsWith (s : string) (c : ascii) : bool :=
  match s with
  | String d _ => bool_decide (d = c)
  | EmptyString => false
  end.

(** [content.split("\n")]: never empty, one more piece than separators. *)
Fixpoint split_lines (s : string) : list string :=
  match s with
  | EmptyString => [EmptyString]
  | String c s' =>
      if bool_decide (c = "010"%char) then EmptyString :: split_lines s'
      else match split_lines s' with
           | l :: ls => String c l :: ls
           | [] => [String c EmptyString]
           end
  end.

Fixpoint no_line_terminator (s : string) : bool :=
  match s with
  | EmptyString => true
  | String c s' => negb (is_line_terminator c) && no_line_terminator s'
  end.

(** [(.*?)\]$] read at the start of [s]: [s] is [m ++ "]"] with no line
    terminator in [m]; the group is [m]. *)
Fixpoint lazy_dots_close_end (s : string) : option string :=
  match s with
  | EmptyString => None
  | String c EmptyString => if bool_decide (c = "]"%char) then Some EmptyString else None
  | String c s' =>
      if is_line_terminator c then None else String c <$> lazy_dots_close_end s'
  end.

(** [/^\[(.*?)\]$/], the test of the classifier; the result is group 1. *)
Definition match_section_line (t : string) : option string :=
  match t with
  | String "["%char rest => lazy_dots_close_end rest
  | _ => None
  end.

(** [(.*?)\]] read at the start of [s]: the text up to the first [']'],
    provided no line terminator comes before it. *)
Fixpoint lazy_dots_close (s : string) : option string :=
  match s with
  | EmptyString => None
  | String c s' =>
      if bool_decide (c = "]"%char) then Some EmptyString
      else if is_line_terminator c then None
      else String c <$> lazy_dots_close s'
  end.

(** [/\[(.*?)\]/], unanchored: the leftmost ['['] from which the rest of the
    pattern matches; the result is group 1. *)
Fixpoint match_section (s : string) : option string :=
  match s with
  | EmptyString => None
  | String c s' =>
      if bool_decide (c = "["%char) then
        match lazy_dots_close s' with
        | Some name => Some name
        | None => match_section s'
        end
      else match_section s'
  end.

(** The text before the first ['='] and the text after it. *)
Fixpoint break_at_equals (s : string) : option (string * string) :=
  match s with
  | EmptyString => None
  | String c s' =>
      if bool_decide (c = "="%char) then Some (EmptyString, s')
      else '(k, v) ← break_at_equals s'; Some (String c k, v)
  end.

(** The key-value pattern of the classifier, anchored at both ends: a
    nonempty run without ['='] (group 1), the first ['='], and a rest that
    [.] accepts up to the end of the input (group 2). *)
Definition match_key_value (t : string) : option (string * string) :=
  '(k, v) ← break_at_equals t;
  if truthy k && no_line_terminator v then Some (k, v) else None.

End Text.

Import Text.

(** ** Outcomes and effects *)

Inductive error :=
| AxiosError (info : string)   (* the HTTP client rejected: no answer, or a status outside 2xx *)
| TypeError (msg : string)
| SyntaxError (msg : string)
| SystemError (msg : string).  (* an [fs] call failed *)

Inductive result (A : Type) :=
| Ok (a : A)
| Throw (e : error).
Arguments Ok {A} a.
Arguments Throw {A} e.

Record TranslateRequest := { q : string; source : string; target : string }.

Inductive event :=
| console_log (msg : string)
| console_error (msg : string) (e : option error)
| http_get (url : string)
| http_post (url : string) (payload : TranslateRequest)
| file_write (path data : string).

(** A computation: what it did, in order, and how it ended. *)
Definition M (A : Type) : Type := list event * result A.

#[global] Instance M_ret : MRet M := λ A a, ([], Ok a).
#[global] Instance M_bind : MBind M := λ A B f m,
  match m with
  | (t, Ok a) => let '(t', r) := f a in (t ++ t', r)
  | (t, Throw e) => (t, Throw e)
  end.
#[global] Instance M_fmap : FMap M := λ A B f m,
  match m with
  | (t, Ok a) => (t, Ok (f a))
  | (t, Throw e) => (t, Throw e)
  end.

Definition emit (e : event) : M () := ([e], Ok ()).
Definition lift {A} (r : result A) : M A := ([], r).
Definition throw {A} (e : error) : M A := ([], Throw e).

Definition try_catch {A} (body : M A) (handler : error → M A) : M A :=
  match body with
  | (t, Ok a) => (t, Ok a)
  | (t, Throw e) => let '(t', r) := handler e in (t ++ t', r)
  end.

(** [for (const x of xs) { ... await ... }] over a loop state. *)
Fixpoint for_of {S X} (body : S → X → M S) (st : S) (xs : list X) : M S :=
  match xs with
  | [] => mret st
  | x :: xs' => st' ← body st x; for_of body st' xs'
  end.

(** [Promise.all(ps)]: every promise of [ps] has been started, the answers
    come in the order of [ps], and one rejection rejects the whole.  The
    trace lists the work of the elements one after the other; the rejection
    reported is the one of the first rejected element. *)
Fixpoint Promise_all {A} (ps : list (M A)) : M (list A) :=
  match ps with
  | [] => mret []
  | p :: ps' =>
      let '(t, r) := p in
      let '(t', rs) := Promise_all ps' in
      (t ++ t',
       match r, rs with
       | Ok a, Ok l => Ok (a :: l)
       | Throw e, _ => Throw e
       | Ok _, Throw e => Throw e
       end)
  end.

(** ** Data *)

(** The value of [response.data.translatedText]: the string of the service,
    or [undefined] when the body carries no such field. *)
Inductive jstext :=
| undefined
| text (s : string).

(** The body of a response of the service, as far as [translateText] reads
    it.  The service contract types [translatedText] as a string. *)
Inductive ResponseData :=
| data_null                            (* the body is [null]: reading a property of it throws *)
| data_without_text                    (* any other body without the field: an empty object, a string *)
| data_text (translatedText : string).

(** [value: any] of the walker.  A number is the bit pattern of its double:
    the program compares and computes none.  The entries of an object are its
    own properties in the order [Object.entries] lists them. *)
#[warnings="-register-all"] Inductive JsonValue :=
| JUndefined
| JNull
| JBool (b : bool)
| JNumber (bits : N)
| JString (s : string)
| JArray (items : list JsonValue)
| JObject (entries : list (string * JsonValue)).

Inductive IniLineType := section | key_line | comment | empty.

#[global] Instance IniLineType_eq_dec : EqDecision IniLineType.
Proof. solve_decision. Defined.

(** [interface IniLine]; its [type: "key"] is [key_line] here. *)
Record IniLine := {
  type : IniLineType;
  content : string;
  key : option string;
  value : option string;
}.

(** [interface TranslatedContent]: section name, then key. *)
Abbreviation Properties := (gmap string jstext).
Abbreviation TranslatedContent := (gmap string (gmap string jstext)).

Record Options := {
  json : bool;
  ini : bool;
  from : string;
  to : string;
  libretranslateUrl : string;
}.

(** What the program does not contain: [fs], [path], [axios] and [JSON]. *)
Record Env := {
  existsSync : string → bool;
  readFileSync : string → result string;
  writeFileSync : string → string → result ();
  axios_get : string → result Z;                              (* the status *)
  axios_post : string → TranslateRequest → result ResponseData; (* [response.data] *)
  JSON_parse : string → result JsonValue;
  JSON_stringify : JsonValue → string;
  path_dirname : string → string;
  path_basename : string → string → string;
  path_join : string → string → string;
}.

(** ** The line classifier *)

(** The body of the loop of [parseIniWithComments], for one [line]. *)
Definition classify (line : string) : IniLine :=
  let trimmedLine := trim line in
  if negb (truthy trimmedLine) then
    {| type := empty; content := line; key := None; value := None |}
  else if startsWith trimmedLine ";" || startsWith trimmedLine "#" then
    {| type := comment; content := line; key := None; value := None |}
  else if match_section_line trimmedLine is Some _ then
    {| type := section; content := line; key := None; value := None |}
  else if match_key_value trimmedLine is Some (k, v) then
    {| type := key_line; content := line; key := Some (trim k); value := Some (trim v) |}
  else
    {| type := key_line; content := line; key := None; value := None |}.

Definition parseIniWithComments (fileContent : string) : list IniLine :=
  classify <$> split_lines fileContent.

(** ** Objects used as dictionaries *)

(** [o[k] = v] for a string or [undefined] [v], on an object created by [{}]:
    an own property, except for [__proto__].  That name is an accessor of
    [Object.prototype]; an assignment that finds an accessor on the prototype
    chain calls its setter and defines nothing on [o], and this setter
    ignores a value that is no object. *)
Definition property_set (k : string) (v : jstext) (o : Properties) : Properties :=
  if bool_decide (k = "__proto__") then o else <[k := v]> o.

(** The functions that [Object.prototype] lends to every object, with the
    name each one prints. *)
Definition Object_prototype_function (k : string) : option string :=
  if bool_decide (k = "constructor") then Some "Object"
  else if bool_decide (k ∈ ["__defineGetter__"; "__defineSetter__"; "hasOwnProperty";
                            "__lookupGetter__"; "__lookupSetter__"; "isPrototypeOf";
                            "propertyIsEnumerable"; "toString"; "valueOf";
                            "toLocaleString"]) then Some k
  else None.

(** What a template literal prints for [o[k]]. *)
Definition property_text (o : Properties) (k : string) : string :=
  match o !! k with
  | Some (text s) => s
  | Some undefined => "undefined"
  | None =>
      if bool_decide (k = "__proto__") then "[object Object]"
      else match Object_prototype_function k with
           | Some f => "function " +:+ f +:+ "() { [native code] }"
           | None => "undefined"
           end
  end.

(** [translatedContent[section][k] = v].  The name [__proto__] of a section
    is served by the prototype slot of [translatedContent], which holds one
    object like any other cell, so that one map stands for both. *)
Definition section_store (section k : string) (v : jstext) (tc : TranslatedContent)
  : result TranslatedContent :=
  match tc !! section with
  | Some o => Ok (<[section := property_set k v o]> tc)
  | None => Throw (TypeError "Cannot set properties of undefined")
  end.

(** [result[key] = v] of the walker, on the entries of [result]: the value of
    a key that [result] owns is replaced where it stands, a new key goes to
    the end, and [__proto__] goes to the setter of [Object.prototype], which
    re-parents [result] or does nothing and in both cases leaves its own
    properties alone.  The walker inserts the keys in the order of
    [Object.entries], which lists integer-like keys first, so that the end is
    also where the engine enumerates each new key. *)
Fixpoint entries_replace (k : string) (v : JsonValue) (es : list (string * JsonValue))
  : option (list (string * JsonValue)) :=
  match es with
  | [] => None
  | (k', v') :: es' =>
      if bool_decide (k' = k) then Some ((k, v) :: es')
      else cons (k', v') <$> entries_replace k v es'
  end.

Definition property_assign (k : string) (v : JsonValue) (es : list (string * JsonValue))
  : list (string * JsonValue) :=
  if bool_decide (k = "__proto__") then es
  else match entries_replace k v es with
       | Some es' => es'
       | None => es ++ [(k, v)]
       end.

Definition JsonValue_of_jstext (t : jstext) : JsonValue :=
  match t with
  | undefined => JUndefined
  | text s => JString s
  end.

(** ** The program *)

Section Program.

Variable env : Env.

Definition checkLibreTranslateAccess (url : string) : M bool :=
  try_catch
    (_ ← emit (http_get url);
     status ← lift (axios_get env url);
     mret (bool_decide (status = 200)))
    (λ _, mret false).

(** [response.data.translatedText] *)
Definition translatedText_of (d : ResponseData) : M jstext :=
  match d with
  | data_null => throw (TypeError "Cannot read properties of null")
  | data_without_text => mret undefined
  | data_text s => mret (text s)
  end.

Definition translateText (txt from to apiUrl : string) : M jstext :=
  try_catch
    (let payload := {| q := txt; source := from; target := to |} in
     _ ← emit (console_log ("Translating text: " +:+ txt));
     _ ← emit (http_post (apiUrl +:+ "/translate") payload);
     d ← lift (axios_post env (apiUrl +:+ "/translate") payload);
     translatedText_of d)
    (λ e, _ ← emit (console_error "Translation error:" (Some e)); throw e).

Fixpoint translateJsonValue (v : JsonValue) (from to apiUrl : string) : M JsonValue :=
  match v with
  | JString s =>
      if truthy (trim s) then JsonValue_of_jstext <$> translateText s from to apiUrl
      else mret v
  | JArray items =>
      JArray <$> Promise_all (map (λ item, translateJsonValue item from to apiUrl) items)
  | JObject entries =>
      JObject <$>
        (fix loop (es result : list (string * JsonValue)) : M (list (string * JsonValue)) :=
           match es with
           | [] => mret result
           | (k, val) :: es' =>
               r ← translateJsonValue val from to apiUrl;
               loop es' (property_assign k r result)
           end) entries []
  | _ => mret v
  end.

Definition processJsonFile (filePath from to apiUrl : string) : M JsonValue :=
  raw ← lift (readFileSync env filePath);
  parsed ← lift (JSON_parse env raw);
  translateJsonValue parsed from to apiUrl.

(** One turn of the loop of [processIniFile]; the loop state is
    [translatedContent] and [currentSection]. *)
Definition pass1_step (from to apiUrl : string)
    (st : TranslatedContent * string) (line : IniLine) : M (TranslatedContent * string) :=
  let '(translatedContent, currentSection) := st in
  match type line with
  | section =>
      match match_section (content line) with
      | Some name => mret (<[name := ∅]> translatedContent, name)
      | None => mret st
      end
  | key_line =>
      match key line, value line with
      | Some k, Some v =>
          if truthy k && truthy v then
            let '(translatedContent, currentSection) :=
              if negb (truthy currentSection)
              then (<["default" := ∅]> translatedContent, "default")
              else st in
            if truthy (trim v) then
              t ← translateText v from to apiUrl;
              tc ← lift (section_store currentSection k t translatedContent);
              mret (tc, currentSection)
            else
              tc ← lift (section_store currentSection k (text v) translatedContent);
              mret (tc, currentSection)
          else mret st
      | _, _ => mret st
      end
  | _ => mret st
  end.

Definition processIniFile (filePath from to apiUrl : string) : M TranslatedContent :=
  fileContent ← lift (readFileSync env filePath);
  let parsedLines := parseIniWithComments fileContent in
  fst <$> for_of (pass1_step from to apiUrl) (∅, "") parsedLines.

(** One turn of the second loop of [main]; the loop state is
    [outputContent] and [currentSection]. *)
Definition pass2_step (translatedContent : TranslatedContent)
    (st : string * string) (line : IniLine) : M (string * string) :=
  let '(outputContent, currentSection) := st in
  match type line with
  | section =>
      match match_section (content line) with
      | Some name => mret (outputContent +:+ content line +:+ nl, name)
      | None => mret st
      end
  | key_line =>
      match key line, value line with
      | Some k, Some v =>
          if truthy k && truthy v then
            let '(outputContent, currentSection) :=
              if negb (truthy currentSection)
              then (outputContent +:+ "[default]" +:+ nl, "default")
              else st in
            match translatedContent !! currentSection with
            | Some o =>
                mret (outputContent +:+ k +:+ "=" +:+ property_text o k +:+ nl,
                      currentSection)
            | None => throw (TypeError "Cannot read properties of undefined")
            end
          else mret (outputContent +:+ content line +:+ nl, currentSection)
      | _, _ => mret (outputContent +:+ content line +:+ nl, currentSection)
      end
  | comment | empty => mret (outputContent +:+ content line +:+ nl, currentSection)
  end.

(** The body of the [try] of [main]. *)
Definition main_try (options : Options) (filePath : string) : M () :=
  _ ← (if json options then
         translatedContent ← processJsonFile filePath (from options) (to options)
                               (libretranslateUrl options);
         let outputPath :=
           path_join env (path_dirname env filePath)
             (path_basename env filePath ".json" +:+ "_translated.json") in
         match translatedContent with
         | JUndefined => throw (TypeError "The data argument must be of type string")
         | _ =>
             _ ← lift (writeFileSync env outputPath (JSON_stringify env translatedContent));
             emit (file_write outputPath (JSON_stringify env translatedContent))
         end
       else
         fileContent ← lift (readFileSync env filePath);
         let parsedLines := parseIniWithComments fileContent in
         translatedContent ← processIniFile filePath (from options) (to options)
                               (libretranslateUrl options);
         let outputPath :=
           path_join env (path_dirname env filePath)
             (path_basename env filePath ".ini" +:+ "_translated.ini") in
         '(outputContent, _) ← for_of (pass2_step translatedContent) ("", "") parsedLines;
         _ ← lift (writeFileSync env outputPath outputContent);
         emit (file_write outputPath outputContent));
  emit (console_log "Translation completed successfully!").

(** [main], up to the end of the process: the trace and the exit status. *)
Definition main (options : Options) (filePath : string) : list event * Z :=
  if negb (existsSync env filePath) then
    ([console_error "Error: File does not exist" None], 1)
  else if negb (json options) && negb (ini options) then
    ([console_error "Error: Please specify either --json or --ini" None], 1)
  else
    match checkLibreTranslateAccess (libretranslateUrl options) with
    | (t, Ok isApiAccessible) =>
        if negb isApiAccessible then
          (t ++ [console_error "Error: LibreTranslate API is not accessible" None], 1)
        else
          match main_try options filePath with
          | (t', Ok _) => (t ++ t', 0)
          | (t', Throw e) =>
              (t ++ t' ++ [console_error "Error during translation:" (Some e)], 1)
          end
    | (t, Throw e) => (t ++ [console_error "" (Some e)], 0)  (* [main().catch(console.error)] *)
    end.

End Program.

(** ** Reading the two loops *)

(** The key and the value of a line that both loops treat as a key-value
    pair: [line.key && line.value]. *)
Definition stores (line : IniLine) : option (string * string) :=
  match type line, key line, value line with
  | key_line, Some k, Some v => if truthy k && truthy v then Some (k, v) else None
  | _, _, _ => None
  end.

(** [currentSection] after a line, the same in both loops. *)
Definition next_section (cs : string) (line : IniLine) : string :=
  match type line with
  | section => default cs (match_section (content line))
  | key_line => if stores line is Some _ then (if truthy cs then cs else "default") else cs
  | _ => cs
  end.

(** The first loop runs [translatedContent[s] = {}] on this line. *)
Definition opens (cs : string) (line : IniLine) (s : string) : bool :=
  match type line with
  | section => bool_decide (match_section (content line) = Some s)
  | key_line =>
      if stores line is Some _ then negb (truthy cs) && bool_decide (s = "default") else false
  | _ => false
  end.

(** The first loop assigns [translatedContent[s][k]] on this line. *)
Definition writes (cs : string) (line : IniLine) (s k : string) : bool :=
  match stores line with
  | Some (k', _) => bool_decide (k' = k) && bool_decide (next_section cs line = s)
  | None => false
  end.

(** No line of [lines] re-creates section [s] or assigns its key [k]. *)
Fixpoint untouched (s k : string) (cs : string) (lines : list IniLine) : bool :=
  match lines with
  | [] => true
  | line :: lines' =>
      negb (opens cs line s) && negb (writes cs line s k)
      && untouched s k (next_section cs line) lines'
  end.

(** [currentSection] after a run of lines. *)
Definition section_after (cs : string) (lines : list IniLine) : string :=
  foldl next_section cs lines.

(** How many [[default]] headers the second loop makes up. *)
Fixpoint synthesized (cs : string) (lines : list IniLine) : nat :=
  match lines with
  | [] => 0
  | line :: lines' =>
      ((if stores line is Some _ then (if truthy cs then 0 else 1) else 0)
       + synthesized (next_section cs line) lines')%nat
  end.

(** A header whose name is empty, as in [[]]. *)
Definition empty_header (line : IniLine) : bool :=
  match type line with
  | section => bool_decide (match_section (content line) = Some "")
  | _ => false
  end.

Fixpoint count_lf (s : string) : nat :=
  match s with
  | EmptyString => 0
  | String c s' => ((if bool_decide (c = "010"%char) then 1 else 0) + count_lf s')%nat
  end.

(** [translatedContent[s][k]], when both exist. *)
Definition cell (tc : TranslatedContent) (s k : string) : option jstext :=
  tc !! s ≫= (.!! k).

(** The section that the next assignment goes to exists. *)
Definition opened (tc : TranslatedContent) (cs : string) : Prop :=
  truthy cs = false ∨ is_Some (tc !! cs).

(** What the first loop stores for the value [v] of a line. *)
Definition stored_value (env : Env) (v from to apiUrl : string) : M jstext :=
  if truthy (trim v) then translateText env v from to apiUrl else mret (text v).

(** What a template literal prints for a stored value. *)
Definition jstext_text (t : jstext) : string :=
  match t with
  | text s => s
  | undefined => "undefined"
  end.

(** A line as the classifier makes it from one piece of [split]. *)
Definition classified (line : IniLine) : Prop :=
  ∃ raw, count_lf raw = 0%nat ∧ line = classify raw.

(** No stored translation contains a line feed. *)
Definition single_line_values (tc : TranslatedContent) : Prop :=
  ∀ s k x, cell tc s k = Some (text x) → count_lf x = 0%nat.

(** ** Reading a trace *)

Definition is_write (ev : event) : bool :=
  match ev with
  | file_write _ _ => true
  | _ => false
  end.

Definition is_request (ev : event) : bool :=
  match ev with
  | http_get _ | http_post _ _ => true
  | _ => false
  end.

(** The message that [translateText] leaves when a call has failed. *)
Definition is_failed_call (ev : event) : bool :=
  match ev with
  | console_error msg (Some _) => bool_decide (msg = "Translation error:")
  | _ => false
  end.

(** A computation that writes no file and that, when it succeeds, has seen
    no call fail. *)
Definition faithful {A} (m : M A) : Prop :=
  Forall (λ ev, is_write ev = false) m.1
  ∧ ∀ a, m.2 = Ok a → Forall (λ ev, is_failed_call ev = false) m.1.

(** ** Shapes of JSON values *)

(** [same_shape v v']: [v'] is [v] up to its string leaves, each of which has
    become a string or [undefined]. *)
#[warnings="-register-all"] Inductive same_shape : JsonValue → JsonValue → Prop :=
| shape_undefined : same_shape JUndefined JUndefined
| shape_null : same_shape JNull JNull
| shape_bool b : same_shape (JBool b) (JBool b)
| shape_number bits : same_shape (JNumber bits) (JNumber bits)
| shape_string s t : same_shape (JString s) (JsonValue_of_jstext t)
| shape_array items items' :
    Forall2 same_shape items items' → same_shape (JArray items) (JArray items')
| shape_object entries entries' :
    Forall2 (λ e e', e.1 = e'.1 ∧ same_shape e.2 e'.2) entries entries' →
    same_shape (JObject entries) (JObject entries').

(** The keys of every object are distinct, as [Object.entries] gives them,
    and none is [__proto__]. *)
Fixpoint plain_keys (v : JsonValue) : Prop :=
  match v with
  | JArray items => (fix all (l : list JsonValue) : Prop :=
                       match l with
                       | [] => True
                       | x :: l' => plain_keys x ∧ all l'
                       end) items
  | JObject entries =>
      NoDup (entries.*1) ∧ ("__proto__" ∉ entries.*1)
      ∧ (fix all (l : list (string * JsonValue)) : Prop :=
           match l with
           | [] => True
           | (_, x) :: l' => plain_keys x ∧ all l'
           end) entries
  | _ => True
  end.

(** ** Reading values, traces and paths *)

(** [c] occurs in [s]. *)
Fixpoint occurs (c : ascii) (s : string) : bool :=
  match s with
  | EmptyString => false
  | String d s' => bool_decide (d = c) || occurs c s'
  end.

(** Every character of [s] is one that [trim] strips. *)
Fixpoint all_white (s : string) : bool :=
  match s with
  | EmptyString => true
  | String c s' => is_white c && all_white s'
  end.

(** The strings of [v] that the walker sends to translation, in document
    order: the string leaves that do not trim to the empty string. *)
Fixpoint text_leaves (v : JsonValue) : list string :=
  match v with
  | JString s => if truthy (trim s) then [s] else []
  | JArray items =>
      (fix go (l : list JsonValue) : list string :=
         match l with
         | [] => []
         | x :: l' => text_leaves x ++ go l'
         end) items
  | JObject entries =>
      (fix go (l : list (string * JsonValue)) : list string :=
         match l with
         | [] => []
         | (_, x) :: l' => text_leaves x ++ go l'
         end) entries
  | _ => []
  end.

(** [v] with each string that the walker sends replaced by what [g] answers
    for it, and everything else as it is. *)
Fixpoint map_text (g : string → jstext) (v : JsonValue) : JsonValue :=
  match v with
  | JString s => if truthy (trim s) then JsonValue_of_jstext (g s) else v
  | JArray items => JArray (map (map_text g) items)
  | JObject entries => JObject (map (λ e, let '(k, x) := e in (k, map_text g x)) entries)
  | _ => v
  end.

(** The text of a translate request. *)
Definition posted (ev : event) : option string :=
  match ev with
  | http_post _ payload => Some (q payload)
  | _ => None
  end.

(** The texts sent to translation, in the order of the trace. *)
Definition posted_texts (t : list event) : list string := omap posted t.

(** The path that [main] writes to. *)
Definition output_path (env : Env) (options : Options) (filePath : string) : string :=
  if json options
  then path_join env (path_dirname env filePath)
         (path_basename env filePath ".json" +:+ "_translated.json")
  else path_join env (path_dirname env filePath)
         (path_basename env filePath ".ini" +:+ "_translated.ini").

(** The loop of the walker over the entries of an object. *)
Abbreviation object_loop env from to apiUrl :=
  (fix loop (es result : list (string * JsonValue)) : M (list (string * JsonValue)) :=
     match es with
     | [] => mret result
     | (k, val) :: es' =>
         translateJsonValue env val from to apiUrl ≫=
           (λ r, loop es' (property_assign k r result))
     end).

(** ** Translate calls that cannot complete *)

(** A translate request that the transport rejected, or that was answered
    with a [null] body: the two ways in which a call of [translateText]
    throws. *)
Definition is_rejected_request (env : Env) (ev : event) : bool :=
  match ev with
  | http_post url payload =>
      match axios_post env url payload with
      | Ok data_without_text | Ok (data_text _) => false
      | Ok data_null | Throw _ => true
      end
  | _ => false
  end.

(** A computation that, when it succeeds, has done nothing that [bad] marks. *)
Definition clean_on_success (bad : event → bool) {A} (m : M A) : Prop :=
  ∀ a, m.2 = Ok a → Forall (λ ev, bad ev = false) m.1.

(** ** Sample environments *)

Fixpoint join_lines (ls : list string) : string :=
  match ls with
  | [] => ""
  | [l] => l
  | l :: ls' => l +:+ nl +:+ join_lines ls'
  end.

(** A healthy service that answers [<q>] for [q], a file system that holds
    [fileContent] under every path, and a parser that yields [parsed]. *)
Definition sample_env (fileContent : string) (parsed : JsonValue) : Env := {|
  existsSync _ := true;
  readFileSync _ := Ok fileContent;
  writeFileSync _ _ := Ok ();
  axios_get _ := Ok 200;
  axios_post _ r := Ok (data_text ("<" +:+ q r +:+ ">"));
  JSON_parse _ := Ok parsed;
  JSON_stringify _ := "(json)";
  path_dirname _ := ".";
  path_basename _ _ := "f";
  path_join a b := a +:+ "/" +:+ b;
|}.

(** The same, with a service whose answers lack [translatedText]. *)
Definition fieldless_env (fileContent : string) (parsed : JsonValue) : Env := {|
  existsSync _ := true;
  readFileSync _ := Ok fileContent;
  writeFileSync _ _ := Ok ();
  axios_get _ := Ok 200;
  axios_post _ _ := Ok data_without_text;
  JSON_parse _ := Ok parsed;
  JSON_stringify _ := "(json)";
  path_dirname _ := ".";
  path_basename _ _ := "f";
  path_join a b := a +:+ "/" +:+ b;
|}.

(** The same, with a service that refuses every translation request. *)
Definition refusing_env (fileContent : string) (parsed : JsonValue) : Env := {|
  existsSync _ := true;
  readFileSync _ := Ok fileContent;
  writeFileSync _ _ := Ok ();
  axios_get _ := Ok 200;
  axios_post _ _ := Throw (AxiosError "Request failed with status code 500");
  JSON_parse _ := Ok parsed;
  JSON_stringify _ := "(json)";
  path_dirname _ := ".";
  path_basename _ _ := "f";
  path_join a b := a +:+ "/" +:+ b;
|}.

(** The same, with a service whose every answer is the two lines [one], [two]. *)
Definition two_line_env (fileContent : string) (parsed : JsonValue) : Env := {|
  existsSync _ := true;
  readFileSync _ := Ok fileContent;
  writeFileSync _ _ := Ok ();
  axios_get _ := Ok 200;
  axios_post _ _ := Ok (data_text ("one" +:+ nl +:+ "two"));
  JSON_parse _ := Ok parsed;
  JSON_stringify _ := "(json)";
  path_dirname _ := ".";
  path_basename _ _ := "f";
  path_join a b := a +:+ "/" +:+ b;
|}.

Definition options_ini : Options :=
  {| json := false; ini := true; from := "auto"; to := "fr"; libretranslateUrl := "http://lt" |}.
Definition options_json : Options :=
  {| json := true; ini := false; from := "auto"; to := "fr"; libretranslateUrl := "http://lt" |}.
Definition options_both : Options :=
  {| json := true; ini := true; from := "auto"; to := "fr"; libretranslateUrl := "http://lt" |}.
Definition options_none : Options :=
  {| json := false; ini := false; from := "auto"; to := "fr"; libretranslateUrl := "http://lt" |}.

(** * Properties *)

(** ** Text *)

Example trim_sample : trim "  port = 80 " = "port = 80".
Proof. reflexivity. Qed.

Example split_sample : split_lines (join_lines ["[a]"; "x=1"; ""]) = ["[a]"; "x=1"; ""].
Proof. reflexivity. Qed.

Example match_section_sample : match_section " [a]b] " = Some "a".
Proof. reflexivity. Qed.

Example match_section_line_sample : match_section_line "[a]b]" = Some "a]b".
Proof. reflexivity. Qed.

Example match_key_value_sample : match_key_value "a = b=c" = Some ("a ", " b=c").
Proof. reflexivity. Qed.

Lemma append_cons (c : ascii) (a b : string) : String c a +:+ b = String c (a +:+ b).
Proof. reflexivity. Qed.

Lemma append_nil_l (s : string) : "" +:+ s = s.
Proof. reflexivity. Qed.

Lemma append_nil_r (s : string) : s +:+ "" = s.
Proof. induction s as [|c s IH]; [done|]. rewrite append_cons. by rewrite IH. Qed.

Lemma append_assoc (a b c : string) : (a +:+ b) +:+ c = a +:+ b +:+ c.
Proof. induction a as [|x a IH]; [done|]. rewrite !append_cons. by rewrite IH. Qed.

Lemma trimStart_head (s : string) :
  trimStart s = "" ∨ ∃ c r, trimStart s = String c r ∧ is_white c = false.
Proof.
  induction s as [|c s IH]; [by left|].
  simpl. destruct (is_white c) eqn:Hc; [done|]. right. by exists c, s.
Qed.

Lemma trimEnd_idemp (s : string) : trimEnd (trimEnd s) = trimEnd s.
Proof.
  induction s as [|c s IH]; [done|].
  simpl. destruct (is_white c && negb (truthy (trimEnd s))) eqn:E; [done|].
  simpl. by rewrite IH, E.
Qed.

Lemma trim_idemp (s : string) : trim (trim s) = trim s.
Proof.
  unfold trim. destruct (trimStart_head s) as [->|(c & r & -> & Hc)]; [done|].
  assert (trimEnd (String c r) = String c (trimEnd r)) as E.
  { simpl. by rewrite Hc. }
  rewrite E. cbn [trimStart]. rewrite Hc, <- E. apply trimEnd_idemp.
Qed.

(** ** The classifier *)

Lemma classify_content (raw : string) : content (classify raw) = raw.
Proof. unfold classify. repeat case_match; done. Qed.

Lemma classify_value (raw v : string) :
  value (classify raw) = Some v →
  type (classify raw) = key_line ∧ is_Some (key (classify raw)) ∧ trim v = v.
Proof.
  unfold classify. repeat case_match; simpl; try done.
  intros [= <-]. split_and!; [done|by eexists|apply trim_idemp].
Qed.

Lemma parse_length (fileContent : string) :
  length (parseIniWithComments fileContent) = length (split_lines fileContent).
Proof. unfold parseIniWithComments. by rewrite length_fmap. Qed.

Lemma parse_lookup (fileContent : string) (i : nat) :
  parseIniWithComments fileContent !! i = classify <$> split_lines fileContent !! i.
Proof. unfold parseIniWithComments. by rewrite list_lookup_fmap. Qed.

Lemma classify_empty_value (raw : string) :
  value (classify raw) = Some "" →
  type (classify raw) = key_line ∧ stores (classify raw) = None.
Proof.
  intros Hv. destruct (classify_value _ _ Hv) as (Ht & [k Hk] & _).
  split; [done|]. unfold stores. rewrite Ht, Hk, Hv.
  by rewrite andb_false_r.
Qed.

(** ** Computations *)

Lemma bind_ok {A B} (m : M A) (f : A → M B) (t : list event) (b : B) :
  m ≫= f = (t, Ok b) →
  ∃ t1 a t2, m = (t1, Ok a) ∧ f a = (t2, Ok b) ∧ t = t1 ++ t2.
Proof.
  destruct m as [t1 [a|e]]; unfold mbind, M_bind; [|done].
  destruct (f a) as [t2 r] eqn:E. intros [= <- ->]. by exists t1, a, t2.
Qed.

Lemma bind_ret_l {A B} (a : A) (f : A → M B) : mret a ≫= f = f a.
Proof. unfold mbind, mret, M_bind, M_ret. by destruct (f a). Qed.

Lemma fmap_ok {A B} (f : A → B) (m : M A) (t : list event) (b : B) :
  f <$> m = (t, Ok b) → ∃ a, m = (t, Ok a) ∧ b = f a.
Proof.
  destruct m as [t1 [a|e]]; unfold fmap, M_fmap; [|done].
  intros [= <- <-]. by exists a.
Qed.

Lemma for_of_cons_ok {S X} (body : S → X → M S) st x xs t st' :
  for_of body st (x :: xs) = (t, Ok st') →
  ∃ t1 st1 t2, body st x = (t1, Ok st1) ∧ for_of body st1 xs = (t2, Ok st') ∧ t = t1 ++ t2.
Proof. simpl. apply bind_ok. Qed.

(** ** One turn of each loop *)

Section Turns.

Context (env : Env) (from to apiUrl : string).

Lemma pass1_step_skip st line :
  type line ≠ section → stores line = None →
  pass1_step env from to apiUrl st line = mret st.
Proof.
  intros Ht Hs. unfold pass1_step, stores in *. destruct st as [tc cs].
  destruct (type line); try done.
  destruct (key line) as [k|], (value line) as [v|]; try done.
  by destruct (truthy k && truthy v).
Qed.

Lemma pass1_step_header tc cs line :
  type line = section →
  pass1_step env from to apiUrl (tc, cs) line =
    mret (match match_section (content line) with
          | Some name => (<[name := ∅]> tc, name)
          | None => (tc, cs)
          end).
Proof. intros Ht. unfold pass1_step. rewrite Ht. by case_match. Qed.

Lemma pass1_step_store tc cs line k v :
  stores line = Some (k, v) →
  pass1_step env from to apiUrl (tc, cs) line =
    (t ← stored_value env v from to apiUrl;
     tc' ← lift (section_store (next_section cs line) k t
                   (if truthy cs then tc else <["default" := ∅]> tc));
     mret (tc', next_section cs line)).
Proof.
  intros Hs. unfold next_section. rewrite Hs. unfold pass1_step, stores, stored_value in *.
  destruct (type line); try done.
  destruct (key line) as [k'|], (value line) as [v'|]; try done.
  destruct (truthy k' && truthy v'); [|done]. injection Hs as -> ->.
  destruct (truthy cs); simpl; destruct (truthy (trim v)); try done.
  all: by rewrite bind_ret_l.
Qed.

Lemma pass2_step_verbatim tc out cs line :
  type line ≠ section → stores line = None →
  pass2_step tc (out, cs) line = mret (out +:+ content line +:+ nl, cs).
Proof.
  intros Ht Hs. unfold pass2_step, stores in *.
  destruct (type line); try done.
  destruct (key line) as [k|], (value line) as [v|]; try done.
  by destruct (truthy k && truthy v).
Qed.

Lemma pass2_step_header tc out cs line :
  type line = section →
  pass2_step tc (out, cs) line =
    mret (match match_section (content line) with
          | Some name => (out +:+ content line +:+ nl, name)
          | None => (out, cs)
          end).
Proof. intros Ht. unfold pass2_step. rewrite Ht. by case_match. Qed.

Lemma pass2_step_store tc out cs line k v :
  stores line = Some (k, v) →
  pass2_step tc (out, cs) line =
    match tc !! next_section cs line with
    | Some o =>
        mret ((if truthy cs then out else out +:+ "[default]" +:+ nl)
               +:+ k +:+ "=" +:+ property_text o k +:+ nl, next_section cs line)
    | None => throw (TypeError "Cannot read properties of undefined")
    end.
Proof.
  intros Hs. unfold next_section. rewrite Hs. unfold pass2_step, stores in *.
  destruct (type line); try done.
  destruct (key line) as [k'|], (value line) as [v'|]; try done.
  destruct (truthy k' && truthy v'); [|done]. injection Hs as -> ->.
  by destruct (truthy cs).
Qed.

End Turns.

(** ** The first loop *)

Lemma section_store_ok (s k : string) (v : jstext) (tc tc' : TranslatedContent) :
  section_store s k v tc = Ok tc' →
  ∃ o, tc !! s = Some o ∧ tc' = <[s := property_set k v o]> tc.
Proof.
  unfold section_store. destruct (tc !! s) as [o|]; [|done].
  intros [= <-]. by exists o.
Qed.

Lemma stores_key_line (line : IniLine) (kv : string * string) :
  stores line = Some kv → type line = key_line.
Proof. unfold stores. by destruct (type line). Qed.

Section FirstLoop.

Context (env : Env) (from to apiUrl : string).

Lemma pass1_step_ok tc cs line t tc' cs' :
  pass1_step env from to apiUrl (tc, cs) line = (t, Ok (tc', cs')) →
  cs' = next_section cs line
  ∧ (∀ s, is_Some (tc !! s) → is_Some (tc' !! s))
  ∧ (is_Some (stores line) → is_Some (tc' !! cs')).
Proof.
  intros Hstep. destruct (stores line) as [[k v]|] eqn:Hs.
  - rewrite (pass1_step_store _ _ _ _ _ _ _ k v Hs) in Hstep.
    apply bind_ok in Hstep as (t1 & x & t2 & _ & Hstep & _).
    apply bind_ok in Hstep as (t3 & tc2 & t4 & Hst & Hret & _).
    injection Hret as _ <- <-. injection Hst as _ Hst.
    apply section_store_ok in Hst as (o & Ho & ->).
    split_and!; [done| |].
    + intros s Hsome. rewrite lookup_insert_is_Some'. right.
      destruct (truthy cs); [done|]. rewrite lookup_insert_is_Some'. by right.
    + intros _. rewrite lookup_insert_is_Some'. by left.
  - destruct (decide (type line = section)) as [Ht|Ht].
    + rewrite pass1_step_header in Hstep; [|done].
      unfold next_section. rewrite Ht.
      destruct (match_section (content line)) as [name|]; injection Hstep as _ <- <-.
      * split_and!; [done| |by intros []].
        intros s Hsome. rewrite lookup_insert_is_Some'. by right.
      * split_and!; [done|done|by intros []].
    + rewrite pass1_step_skip in Hstep; [|done..]. injection Hstep as _ <- <-.
      split_and!; [|done|by intros []].
      unfold next_section. rewrite Hs. by destruct (type line).
Qed.

Lemma pass1_step_cell tc cs line t tc' cs' s k :
  pass1_step env from to apiUrl (tc, cs) line = (t, Ok (tc', cs')) →
  opens cs line s = false → writes cs line s k = false →
  cell tc' s k = cell tc s k.
Proof.
  intros Hstep Ho Hw. destruct (stores line) as [[k' v]|] eqn:Hs.
  - rewrite (pass1_step_store _ _ _ _ _ _ _ k' v Hs) in Hstep.
    apply bind_ok in Hstep as (t1 & x & t2 & _ & Hstep & _).
    apply bind_ok in Hstep as (t3 & tc2 & t4 & Hst & Hret & _).
    injection Hret as _ <- <-. injection Hst as _ Hst.
    apply section_store_ok in Hst as (o & Hlook & ->).
    unfold opens in Ho. rewrite (stores_key_line _ _ Hs), Hs in Ho.
    unfold writes in Hw. rewrite Hs in Hw.
    assert (cell (if truthy cs then tc else <["default" := ∅]> tc) s k = cell tc s k) as E.
    { destruct (truthy cs); [done|]. simpl in Ho. apply bool_decide_eq_false in Ho.
      unfold cell. by rewrite lookup_insert_ne. }
    rewrite <- E. unfold cell.
    destruct (decide (next_section cs line = s)) as [Heq|Hne].
    + rewrite Heq in *. rewrite lookup_insert_eq, Hlook. simpl.
      rewrite (bool_decide_eq_true_2 _ eq_refl), andb_true_r in Hw.
      apply bool_decide_eq_false in Hw.
      unfold property_set. destruct (bool_decide (k' = "__proto__")); [done|].
      by rewrite lookup_insert_ne.
    + by rewrite lookup_insert_ne.
  - destruct (decide (type line = section)) as [Ht|Ht].
    + rewrite pass1_step_header in Hstep; [|done].
      unfold opens in Ho. rewrite Ht in Ho. apply bool_decide_eq_false in Ho.
      destruct (match_section (content line)) as [name|]; injection Hstep as _ <- <-;
        [|done].
      unfold cell. rewrite lookup_insert_ne; [done|congruence].
    + rewrite pass1_step_skip in Hstep; [|done..]. by injection Hstep as _ <- <-.
Qed.

Lemma pass1_step_written tc cs line k v t tc' cs' :
  stores line = Some (k, v) → k ≠ "__proto__" →
  pass1_step env from to apiUrl (tc, cs) line = (t, Ok (tc', cs')) →
  ∃ t1 x, stored_value env v from to apiUrl = (t1, Ok x)
          ∧ cell tc' (next_section cs line) k = Some x.
Proof.
  intros Hs Hk Hstep.
  rewrite (pass1_step_store _ _ _ _ _ _ _ k v Hs) in Hstep.
  apply bind_ok in Hstep as (t1 & x & t2 & Hv & Hstep & _).
  apply bind_ok in Hstep as (t3 & tc2 & t4 & Hst & Hret & _).
  injection Hret as _ <- <-. injection Hst as _ Hst.
  apply section_store_ok in Hst as (o & Hlook & ->).
  exists t1, x. split; [done|]. unfold cell. rewrite lookup_insert_eq. simpl.
  unfold property_set. rewrite bool_decide_eq_false_2; [|done]. by rewrite lookup_insert_eq.
Qed.

Lemma pass1_loop_ok lines : ∀ tc cs t tc' cs',
  for_of (pass1_step env from to apiUrl) (tc, cs) lines = (t, Ok (tc', cs')) →
  cs' = section_after cs lines ∧ (∀ s, is_Some (tc !! s) → is_Some (tc' !! s)).
Proof.
  induction lines as [|line lines IH]; intros tc cs t tc' cs' Hrun.
  - by injection Hrun as _ <- <-.
  - apply for_of_cons_ok in Hrun as (t1 & [tc1 cs1] & t2 & Hstep & Hrun & _).
    apply pass1_step_ok in Hstep as (-> & Hmono & _).
    apply IH in Hrun as (-> & Hmono'). split; [done|]. auto.
Qed.

Lemma pass1_loop_untouched s k lines : ∀ tc cs t tc' cs',
  for_of (pass1_step env from to apiUrl) (tc, cs) lines = (t, Ok (tc', cs')) →
  untouched s k cs lines = true →
  cell tc' s k = cell tc s k.
Proof.
  induction lines as [|line lines IH]; intros tc cs t tc' cs' Hrun Hun.
  - by injection Hrun as _ <- <-.
  - apply for_of_cons_ok in Hrun as (t1 & [tc1 cs1] & t2 & Hstep & Hrun & _).
    simpl in Hun. apply andb_true_iff in Hun as [Hun Hrest].
    apply andb_true_iff in Hun as [Ho Hw].
    apply negb_true_iff in Ho, Hw.
    pose proof (pass1_step_cell _ _ _ _ _ _ _ _ Hstep Ho Hw) as E.
    apply pass1_step_ok in Hstep as (-> & _).
    rewrite <- E. by eapply IH.
Qed.

End FirstLoop.

(** ** More on computations and text *)

Lemma bind_assoc {A B C} (m : M A) (f : A → M B) (g : B → M C) :
  (m ≫= f) ≫= g = m ≫= (λ a, f a ≫= g).
Proof.
  destruct m as [t [a|e]]; unfold mbind, M_bind; [|done].
  destruct (f a) as [t1 [b|e]]; [|done].
  destruct (g b) as [t2 r]. by rewrite app_assoc.
Qed.

Lemma bind_ret_r {A} (m : M A) : m ≫= mret = m.
Proof.
  destruct m as [t [a|e]]; unfold mbind, mret, M_bind, M_ret; [|done].
  by rewrite app_nil_r.
Qed.

Lemma for_of_app {S X} (body : S → X → M S) (xs ys : list X) : ∀ st,
  for_of body st (xs ++ ys) = for_of body st xs ≫= (λ st', for_of body st' ys).
Proof.
  induction xs as [|x xs IH]; intros st.
  - change (for_of body st ys = mret st ≫= (λ st', for_of body st' ys)).
    by rewrite bind_ret_l.
  - change (body st x ≫= (λ st', for_of body st' (xs ++ ys))
            = (body st x ≫= (λ st', for_of body st' xs)) ≫= (λ st', for_of body st' ys)).
    rewrite bind_assoc.
    destruct (body st x) as [t [st1|e]]; unfold mbind, M_bind; [|done].
    by rewrite IH.
Qed.

Lemma for_of_snoc {S X} (body : S → X → M S) (xs : list X) (x : X) (st : S) :
  for_of body st (xs ++ [x]) = for_of body st xs ≫= (λ st', body st' x).
Proof.
  rewrite for_of_app.
  destruct (for_of body st xs) as [t [st1|e]]; unfold mbind, M_bind; [|done].
  simpl. by rewrite bind_ret_r.
Qed.

Lemma count_lf_app (a b : string) : count_lf (a +:+ b) = (count_lf a + count_lf b)%nat.
Proof.
  induction a as [|c a IH]; [done|]. rewrite append_cons. simpl. rewrite IH. lia.
Qed.

Lemma count_lf_trimStart (s : string) : count_lf s = 0%nat → count_lf (trimStart s) = 0%nat.
Proof.
  induction s as [|c s IH]; [done|]. simpl. intros H.
  destruct (is_white c); [apply IH; lia|done].
Qed.

Lemma count_lf_trimEnd (s : string) : count_lf s = 0%nat → count_lf (trimEnd s) = 0%nat.
Proof.
  induction s as [|c s IH]; [done|]. simpl. intros H.
  destruct (is_white c && negb (truthy (trimEnd s))); [done|].
  simpl. rewrite IH; lia.
Qed.

Lemma count_lf_trim (s : string) : count_lf s = 0%nat → count_lf (trim s) = 0%nat.
Proof. intros H. by apply count_lf_trimEnd, count_lf_trimStart. Qed.

Lemma count_lf_break (s k v : string) :
  break_at_equals s = Some (k, v) → count_lf s = 0%nat → count_lf k = 0%nat.
Proof.
  revert k v. induction s as [|c s IH]; intros k v; [done|]. simpl.
  destruct (bool_decide (c = "="%char)).
  - by intros [= <- <-].
  - destruct (break_at_equals s) as [[k' v']|]; [|done]. simpl.
    intros [= <- <-] H. simpl. rewrite (IH k' v' eq_refl); lia.
Qed.

Lemma split_lines_nonempty (s : string) : split_lines s ≠ [].
Proof.
  destruct s as [|c s]; [done|]. simpl.
  destruct (bool_decide (c = "010"%char)); [done|]. by destruct (split_lines s).
Qed.

Lemma split_lines_lf (s : string) : Forall (λ l, count_lf l = 0%nat) (split_lines s).
Proof.
  induction s as [|c s IH]; [by repeat constructor|]. simpl.
  destruct (bool_decide (c = "010"%char)) eqn:E; [by constructor|].
  destruct (split_lines s) as [|l ls]; [by repeat constructor; simpl; rewrite E|].
  inversion IH as [|? ? Hl Hls]; subst. constructor; [|done]. simpl. by rewrite E, Hl.
Qed.

Lemma white_not_bracket (c : ascii) : is_white c = true → c ≠ "["%char.
Proof. by intros H ->. Qed.

Lemma match_section_trimStart (s : string) :
  match_section (trimStart s) = match_section s.
Proof.
  induction s as [|c s IH]; [done|]. cbn [trimStart].
  destruct (is_white c) eqn:Hc; [|done].
  rewrite IH. simpl. by rewrite bool_decide_eq_false_2; [|apply white_not_bracket].
Qed.

Lemma lazy_dots_close_trimEnd (r m : string) :
  lazy_dots_close_end (trimEnd r) = Some m → is_Some (lazy_dots_close r).
Proof.
  revert m. induction r as [|c r IH]; intros m; [done|]. cbn [trimEnd lazy_dots_close].
  destruct (bool_decide (c = "]"%char)) eqn:Hclose; [by eexists|].
  destruct (is_white c && negb (truthy (trimEnd r))); [done|].
  cbn [lazy_dots_close_end]. destruct (trimEnd r) as [|d r'] eqn:E.
  - by rewrite Hclose.
  - destruct (is_line_terminator c); [done|].
    destruct (lazy_dots_close_end (String d r')) as [m'|] eqn:E'; [|done].
    intros _. destruct (IH m' eq_refl) as [x ->]. by eexists.
Qed.

(** A line that the classifier calls a section is one whose name the two
    loops can read. *)
Lemma match_section_of_line (raw : string) :
  is_Some (match_section_line (trim raw)) → is_Some (match_section raw).
Proof.
  rewrite <- match_section_trimStart. unfold trim.
  destruct (trimStart raw) as [|c r]; [by intros [? [=]]|].
  cbn [trimEnd]. destruct (is_white c && negb (truthy (trimEnd r))); [by intros [? [=]]|].
  unfold match_section_line. intros [m Hm].
  destruct (decide (c = "["%char)) as [->|Hne].
  - destruct (lazy_dots_close_trimEnd r m Hm) as [x Hx]. simpl. rewrite Hx. by eexists.
  - destruct c as [[] [] [] [] [] [] [] []]; try done.
Qed.

(** ** Classified lines *)

Lemma parse_classified (fileContent : string) :
  Forall classified (parseIniWithComments fileContent).
Proof.
  unfold parseIniWithComments. apply Forall_fmap.
  eapply Forall_impl; [apply split_lines_lf|]. intros raw H. by exists raw.
Qed.

Lemma classified_content (line : IniLine) :
  classified line → count_lf (content line) = 0%nat.
Proof. intros (raw & H & ->). by rewrite classify_content. Qed.

Lemma classified_section (line : IniLine) :
  classified line → type line = section → is_Some (match_section (content line)).
Proof.
  intros (raw & _ & ->). rewrite classify_content. intros Ht.
  apply match_section_of_line. revert Ht. unfold classify.
  repeat case_match; done.
Qed.

Lemma match_key_value_break (t k v : string) :
  match_key_value t = Some (k, v) → break_at_equals t = Some (k, v).
Proof.
  unfold match_key_value. destruct (break_at_equals t) as [[a b]|]; [|done].
  simpl. by destruct (truthy a && no_line_terminator b).
Qed.

Lemma classified_stores (line : IniLine) (k v : string) :
  classified line → stores line = Some (k, v) →
  count_lf k = 0%nat ∧ truthy (trim v) = true.
Proof.
  intros (raw & Hlf & ->). unfold stores.
  destruct (value (classify raw)) as [v'|] eqn:Hv; [|by repeat case_match].
  destruct (classify_value _ _ Hv) as (Ht & [k' Hk] & Htrim).
  rewrite Ht, Hk. destruct (truthy k' && truthy v') eqn:E; [|done].
  intros [= -> ->]. apply andb_true_iff in E as [_ E]. split; [|by rewrite Htrim].
  revert Hk. unfold classify. repeat case_match; try done. simpl. intros [= <-].
  apply count_lf_trim. eapply count_lf_break.
  - apply match_key_value_break. eassumption.
  - by apply count_lf_trim.
Qed.

Lemma stored_value_classified env from to apiUrl line k v :
  classified line → stores line = Some (k, v) →
  stored_value env v from to apiUrl = translateText env v from to apiUrl.
Proof.
  intros Hc Hs. destruct (classified_stores _ _ _ Hc Hs) as [_ E].
  unfold stored_value. by rewrite E.
Qed.

(** ** The second loop *)

Lemma pass2_step_silent tc st line : (pass2_step tc st line).1 = [].
Proof.
  destruct st as [out cs]. unfold pass2_step. repeat case_match; done.
Qed.

Lemma pass2_step_section tc out cs line t out' cs' :
  pass2_step tc (out, cs) line = (t, Ok (out', cs')) → cs' = next_section cs line.
Proof.
  intros Hstep. destruct (stores line) as [[k v]|] eqn:Hs.
  - rewrite (pass2_step_store _ _ _ _ k v Hs) in Hstep.
    destruct (tc !! next_section cs line); [|done]. by injection Hstep as _ _ <-.
  - destruct (decide (type line = section)) as [Ht|Ht].
    + rewrite pass2_step_header in Hstep; [|done]. unfold next_section. rewrite Ht.
      by destruct (match_section (content line)); injection Hstep as _ _ <-.
    + rewrite pass2_step_verbatim in Hstep; [|done..]. injection Hstep as _ _ <-.
      unfold next_section. rewrite Hs. by destruct (type line).
Qed.

Lemma pass2_loop_section tc lines : ∀ out cs t out' cs',
  for_of (pass2_step tc) (out, cs) lines = (t, Ok (out', cs')) →
  cs' = section_after cs lines ∧ t = [].
Proof.
  induction lines as [|line lines IH]; intros out cs t out' cs' Hrun.
  - by injection Hrun as <- _ <-.
  - apply for_of_cons_ok in Hrun as (t1 & [out1 cs1] & t2 & Hstep & Hrun & ->).
    pose proof (pass2_step_silent tc (out, cs) line) as Hsilent.
    rewrite Hstep in Hsilent. simpl in Hsilent. subst t1.
    apply pass2_step_section in Hstep as ->.
    by apply IH in Hrun as [-> ->].
Qed.

(** The second loop reads only sections that the first loop has created. *)
Lemma pass2_loop_total env from to apiUrl tcf lines : ∀ tc cs t tc' csf out,
  for_of (pass1_step env from to apiUrl) (tc, cs) lines = (t, Ok (tc', csf)) →
  (∀ s, is_Some (tc' !! s) → is_Some (tcf !! s)) →
  ∃ out', for_of (pass2_step tcf) (out, cs) lines = ([], Ok (out', csf)).
Proof.
  induction lines as [|line lines IH]; intros tc cs t tc' csf out Hrun Hsub.
  - injection Hrun as _ _ <-. by exists out.
  - apply for_of_cons_ok in Hrun as (t1 & [tc1 cs1] & t2 & Hstep & Hrun & _).
    pose proof (pass1_step_ok _ _ _ _ _ _ _ _ _ _ Hstep) as (-> & _ & Hopen).
    pose proof (pass1_loop_ok _ _ _ _ _ _ _ _ _ _ Hrun) as (_ & Hmono).
    assert (∃ out1, pass2_step tcf (out, cs) line = ([], Ok (out1, next_section cs line)))
      as [out1 Hstep2].
    { destruct (stores line) as [[k v]|] eqn:Hs.
      - rewrite (pass2_step_store _ _ _ _ k v Hs).
        destruct (Hsub _ (Hmono _ (Hopen ltac:(done)))) as [o ->]. by eexists.
      - destruct (decide (type line = section)) as [Ht|Ht].
        + rewrite pass2_step_header; [|done]. unfold next_section. rewrite Ht.
          destruct (match_section (content line)); by eexists.
        + rewrite pass2_step_verbatim; [|done..]. unfold next_section. rewrite Hs.
          destruct (type line); try done; by eexists. }
    destruct (IH _ _ _ _ _ out1 Hrun Hsub) as [out' Hrest].
    exists out'. cbn [for_of]. rewrite Hstep2. unfold mbind, M_bind. by rewrite Hrest.
Qed.

Lemma property_text_lf (o : Properties) (k : string) :
  (∀ x, o !! k = Some (text x) → count_lf x = 0%nat) → count_lf k = 0%nat →
  count_lf (property_text o k) = 0%nat.
Proof.
  intros Ho Hk. unfold property_text. destruct (o !! k) as [[|x]|]; [done|by apply Ho|].
  destruct (bool_decide (k = "__proto__")); [done|].
  unfold Object_prototype_function.
  destruct (bool_decide (k = "constructor")); [done|].
  case_bool_decide; [|done]. by rewrite !count_lf_app, Hk.
Qed.

Lemma pass2_loop_count tc lines : ∀ out cs t out' cs',
  Forall classified lines → single_line_values tc →
  for_of (pass2_step tc) (out, cs) lines = (t, Ok (out', cs')) →
  count_lf out' = (count_lf out + length lines + synthesized cs lines)%nat.
Proof.
  induction lines as [|line lines IH]; intros out cs t out' cs' Hcl Htc Hrun.
  - injection Hrun as _ <- _. simpl. lia.
  - apply for_of_cons_ok in Hrun as (t1 & [out1 cs1] & t2 & Hstep & Hrun & _).
    inversion Hcl as [|? ? Hline Hlines]; subst.
    pose proof (pass2_step_section _ _ _ _ _ _ _ Hstep) as ->.
    rewrite (IH _ _ _ _ _ Hlines Htc Hrun). cbn [length synthesized].
    assert (count_lf out1 =
            (count_lf out + 1 + if stores line is Some _
                                then (if truthy cs then 0 else 1) else 0)%nat) as ->; [|lia].
    pose proof (classified_content _ Hline) as Hc.
    destruct (stores line) as [[k v]|] eqn:Hs.
    + rewrite (pass2_step_store _ _ _ _ k v Hs) in Hstep.
      destruct (tc !! next_section cs line) as [o|] eqn:Ho; [|done].
      injection Hstep as _ <-.
      destruct (classified_stores _ _ _ Hline Hs) as [Hk _].
      rewrite !count_lf_app, property_text_lf, Hk; [|by intros x Hx; eapply Htc;
        unfold cell; rewrite Ho|done].
      destruct (truthy cs); rewrite ?count_lf_app; simpl; lia.
    + destruct (decide (type line = section)) as [Ht|Ht].
      * rewrite pass2_step_header in Hstep; [|done].
        destruct (classified_section _ Hline Ht) as [name Hname]. rewrite Hname in Hstep.
        injection Hstep as _ <-. rewrite !count_lf_app, Hc. simpl. lia.
      * rewrite pass2_step_verbatim in Hstep; [|done..]. injection Hstep as _ <-.
        rewrite !count_lf_app, Hc. simpl. lia.
Qed.

Lemma synthesized_in_section (lines : list IniLine) : ∀ cs,
  truthy cs = true → Forall (λ l, empty_header l = false) lines →
  synthesized cs lines = 0%nat.
Proof.
  induction lines as [|line lines IH]; intros cs Hcs Hne; [done|].
  inversion Hne as [|? ? Hline Hlines]; subst. simpl. rewrite Hcs.
  rewrite IH; [by destruct (stores line)| |done].
  unfold next_section, empty_header in *. destruct (type line); try done.
  - by destruct (match_section (content line)) as [[|c n]|].
  - destruct (stores line); by rewrite ?Hcs.
Qed.

Lemma synthesized_once (lines : list IniLine) : ∀ cs,
  Forall (λ l, empty_header l = false) lines → (synthesized cs lines ≤ 1)%nat.
Proof.
  induction lines as [|line lines IH]; intros cs Hne; [simpl; lia|].
  inversion Hne as [|? ? Hline Hlines]; subst. simpl.
  destruct (stores line) as [kv|] eqn:Hs.
  - destruct (truthy cs) eqn:Hcs.
    + rewrite synthesized_in_section; [lia| |done].
      unfold next_section. by rewrite (stores_key_line _ _ Hs), Hs, Hcs.
    + rewrite synthesized_in_section; [lia| |done].
      unfold next_section. by rewrite (stores_key_line _ _ Hs), Hs, Hcs.
  - specialize (IH (next_section cs line) Hlines). lia.
Qed.

Lemma for_of_app_ok {S X} (body : S → X → M S) (xs ys : list X) st t st' :
  for_of body st (xs ++ ys) = (t, Ok st') →
  ∃ t1 st1 t2, for_of body st xs = (t1, Ok st1) ∧ for_of body st1 ys = (t2, Ok st')
               ∧ t = t1 ++ t2.
Proof. rewrite for_of_app. apply bind_ok. Qed.

(** One more turn of a loop, after the first [i] ones. *)
Lemma for_of_take_S {S X} (body : S → X → M S) (xs : list X) (i : nat) (x : X) st t st1 :
  xs !! i = Some x →
  for_of body st (take i xs) = (t, Ok st1) →
  for_of body st (take (Datatypes.S i) xs) = (let '(t', r) := body st1 x in (t ++ t', r)).
Proof.
  intros Hx Hrun. rewrite (take_S_r _ _ _ Hx), for_of_snoc, Hrun. done.
Qed.

(** * The claims about the INI reconstructor *)

(** A header always leaves its section empty, whatever it held. *)
Lemma header_resets_section env from to apiUrl tc cs line name :
  type line = section → match_section (content line) = Some name →
  pass1_step env from to apiUrl (tc, cs) line = ([], Ok (<[name := ∅]> tc, name))
  ∧ ∀ k, cell (<[name := ∅]> tc) name k = None.
Proof.
  intros Ht Hm. rewrite pass1_step_header; [|done]. rewrite Hm. split; [done|].
  intros k. unfold cell. by rewrite lookup_insert_eq.
Qed.

(** C1, evaluated on the four lines [[a]], [x=1], [[a]], [y=2]: after the first
    two lines the table holds [x] under [a]; after the second header the
    section is empty, and the table returned holds [y] alone.  The claim says
    that [x] is still present. *)
Theorem reopened_section_loses_keys :
  let env := sample_env (join_lines ["[a]"; "x=1"; "[a]"; "y=2"]) JNull in
  let lines := parseIniWithComments (join_lines ["[a]"; "x=1"; "[a]"; "y=2"]) in
  let run n := (for_of (pass1_step env "auto" "fr" "http://lt") (∅, "") (take n lines)).2 in
  run 2%nat = Ok ({[ "a" := {[ "x" := text "<1>" ]} ]}, "a")
  ∧ run 3%nat = Ok ({[ "a" := ∅ ]}, "a")
  ∧ (processIniFile env "f.ini" "auto" "fr" "http://lt").2
    = Ok {[ "a" := {[ "y" := text "<2>" ]} ]}.
Proof. split_and!; vm_compute; reflexivity. Qed.

(** C2, evaluated on the same file: the second loop looks up [x] under [a],
    finds nothing, and the file written carries [x=undefined].  The claim says
    that the entry exists and that the line is [x=<1>]. *)
Theorem reopened_section_prints_undefined :
  main (sample_env (join_lines ["[a]"; "x=1"; "[a]"; "y=2"]) JNull) options_ini "f.ini"
  = ([ http_get "http://lt";
       console_log "Translating text: 1";
       http_post "http://lt/translate" {| q := "1"; source := "auto"; target := "fr" |};
       console_log "Translating text: 2";
       http_post "http://lt/translate" {| q := "2"; source := "auto"; target := "fr" |};
       file_write "./f_translated.ini"
         (join_lines ["[a]"; "x=undefined"; "[a]"; "y=<2>"; ""]);
       console_log "Translation completed successfully!" ], 0).
Proof. vm_compute. reflexivity. Qed.

Lemma pass1_step_empty_value env from to apiUrl st raw :
  value (classify raw) = Some "" →
  pass1_step env from to apiUrl st (classify raw) = ([], Ok st).
Proof.
  intros Hv. destruct (classify_empty_value _ Hv) as [Ht Hs].
  apply pass1_step_skip; [by rewrite Ht|done].
Qed.

(** C5, refuted on the two lines [[server]], [port=]: nothing is stored
    under [port]. *)
Lemma empty_value_is_not_stored :
  let env := sample_env (join_lines ["[server]"; "port="]) JNull in
  value (classify "port=") = Some ""
  ∧ processIniFile env "f.ini" "auto" "fr" "http://lt" = ([], Ok {[ "server" := ∅ ]})
  ∧ cell {[ "server" := ∅ ]} "server" "port" = None.
Proof. split_and!; vm_compute; reflexivity. Qed.

(** C5, amended: a key-value line whose value trims to the empty string is
    not sent to translation and nothing is stored for it; the turn of the
    first loop leaves the table and the current section as they were. *)
Theorem empty_value_line_is_skipped env from to apiUrl st raw :
  value (classify raw) = Some "" →
  pass1_step env from to apiUrl st (classify raw) = ([], Ok st).
Proof. apply pass1_step_empty_value. Qed.

Lemma empty_value_line_is_skipped_witness :
  value (classify "port=") = Some ""
  ∧ pass1_step (sample_env "" JNull) "auto" "fr" "http://lt" ({[ "server" := ∅ ]}, "server")
      (classify "port=")
    = ([], Ok ({[ "server" := ∅ ]}, "server")).
Proof.
  split; [reflexivity|].
  apply (empty_value_line_is_skipped (sample_env "" JNull) "auto" "fr" "http://lt"
           ({[ "server" := ∅ ]}, "server") "port="). reflexivity.
Defined.

(** C6: the turn of the second loop for a key-value line whose value trims to
    the empty string appends the raw line and a line feed to the output, and
    nothing else, whatever the table holds; the turn of the first loop for it
    issues no request. *)
Theorem empty_value_line_is_copied env from to apiUrl tc fileContent i raw :
  split_lines fileContent !! i = Some raw →
  value (classify raw) = Some "" →
  (∀ t out cs,
     for_of (pass2_step tc) ("", "") (take i (parseIniWithComments fileContent))
       = (t, Ok (out, cs)) →
     for_of (pass2_step tc) ("", "") (take (S i) (parseIniWithComments fileContent))
       = (t, Ok (out +:+ raw +:+ nl, cs)))
  ∧ (∀ st, (pass1_step env from to apiUrl st (classify raw)).1 = []).
Proof.
  intros Hi Hv. destruct (classify_empty_value _ Hv) as [Ht Hs]. split.
  - intros t out cs Hrun.
    assert (parseIniWithComments fileContent !! i = Some (classify raw)) as Hline.
    { by rewrite parse_lookup, Hi. }
    rewrite (for_of_take_S _ _ _ _ _ _ _ Hline Hrun).
    rewrite pass2_step_verbatim; [|by rewrite Ht|done].
    rewrite classify_content. simpl. by rewrite app_nil_r.
  - intros st. by rewrite (pass1_step_empty_value _ _ _ _ _ _ Hv).
Qed.

Lemma empty_value_line_is_copied_witness :
  let fileContent := join_lines ["[server]"; "port = "] in
  (∀ t out cs,
     for_of (pass2_step ∅) ("", "") (take 1 (parseIniWithComments fileContent))
       = (t, Ok (out, cs)) →
     for_of (pass2_step ∅) ("", "") (take 2 (parseIniWithComments fileContent))
       = (t, Ok (out +:+ "port = " +:+ nl, cs)))
  ∧ (∀ st, (pass1_step (sample_env "" JNull) "auto" "fr" "http://lt" st
              (classify "port = ")).1 = []).
Proof.
  apply (empty_value_line_is_copied (sample_env "" JNull) "auto" "fr" "http://lt" ∅
           (join_lines ["[server]"; "port = "]) 1 "port = "); reflexivity.
Defined.

(** C8, refuted twice.  On the three lines [x=1], [[]], [y=2] the header
    with the empty name empties [currentSection] again, a second [[default]]
    is made up, and five lines are written for three.  On the two lines
    [[s]], [k=v], with a service whose answer has two lines, no header is made
    up and three lines are written for two. *)
Lemma more_lines_than_claimed :
  let fileContent := join_lines ["x=1"; "[]"; "y=2"] in
  let written := join_lines ["[default]"; "x=undefined"; "[]"; "[default]"; "y=<2>"; ""] in
  let fileContent' := join_lines ["[s]"; "k=v"] in
  let written' := join_lines ["[s]"; "k=one"; "two"; ""] in
  (length (split_lines fileContent) = 3%nat
   ∧ In (file_write "./f_translated.ini" written)
        (main (sample_env fileContent JNull) options_ini "f.ini").1
   ∧ count_lf written = 5%nat)
  ∧ (length (split_lines fileContent') = 2%nat
     ∧ synthesized "" (parseIniWithComments fileContent') = 0%nat
     ∧ In (file_write "./f_translated.ini" written')
          (main (two_line_env fileContent' JNull) options_ini "f.ini").1
     ∧ count_lf written' = 3%nat).
Proof. split_and!; vm_compute; try reflexivity; tauto. Qed.

(** C8, amended: when the first loop has succeeded and no stored translation
    contains a line feed, the second loop succeeds and its output has one
    line for each classified line plus one for each [[default]] header it
    makes up; a header is made up at each key-value line with nonempty key and
    value that is reached with an empty current section, which happens once
    at most when no header of the file has an empty name. *)
Theorem output_line_count env from to apiUrl fileContent t tc cs :
  for_of (pass1_step env from to apiUrl) (∅, "") (parseIniWithComments fileContent)
    = (t, Ok (tc, cs)) →
  single_line_values tc →
  ∃ out,
    for_of (pass2_step tc) ("", "") (parseIniWithComments fileContent) = ([], Ok (out, cs))
    ∧ count_lf out = (length (split_lines fileContent)
                      + synthesized "" (parseIniWithComments fileContent))%nat
    ∧ (Forall (λ l, empty_header l = false) (parseIniWithComments fileContent) →
       (synthesized "" (parseIniWithComments fileContent) ≤ 1)%nat).
Proof.
  intros Hrun Htc.
  destruct (pass2_loop_total _ _ _ _ tc _ _ _ _ _ _ "" Hrun ltac:(done)) as [out Hout].
  exists out. split_and!; [done| |apply synthesized_once].
  rewrite (pass2_loop_count _ _ _ _ _ _ _ (parse_classified _) Htc Hout).
  by rewrite parse_length.
Qed.

Lemma output_line_count_witness :
  let fileContent := join_lines ["greeting=Hello"; ""] in
  ∃ out,
    for_of (pass2_step {[ "default" := {[ "greeting" := text "<Hello>" ]} ]}) ("", "")
      (parseIniWithComments fileContent) = ([], Ok (out, "default"))
    ∧ count_lf out = (length (split_lines fileContent)
                      + synthesized "" (parseIniWithComments fileContent))%nat
    ∧ (Forall (λ l, empty_header l = false) (parseIniWithComments fileContent) →
       (synthesized "" (parseIniWithComments fileContent) ≤ 1)%nat).
Proof.
  apply (output_line_count (sample_env "" JNull) "auto" "fr" "http://lt"
           (join_lines ["greeting=Hello"; ""])
           [ console_log "Translating text: Hello";
             http_post "http://lt/translate"
               {| q := "Hello"; source := "auto"; target := "fr" |} ]).
  - vm_compute. reflexivity.
  - intros s k x. unfold cell.
    destruct (decide (s = "default")) as [->|Hs];
      [rewrite lookup_singleton_eq|by rewrite lookup_singleton_ne].
    simpl. destruct (decide (k = "greeting")) as [->|Hk];
      [rewrite lookup_singleton_eq|by rewrite lookup_singleton_ne].
    by intros [= <-].
Defined.

Lemma cell_property_text (tc : TranslatedContent) (s k : string) (x : jstext) :
  cell tc s k = Some x →
  ∃ o, tc !! s = Some o ∧ property_text o k = jstext_text x.
Proof.
  unfold cell. destruct (tc !! s) as [o|]; [|done]. simpl. intros Hk.
  exists o. split; [done|]. unfold property_text. rewrite Hk. by destruct x.
Qed.

(** C10, evaluated on the four lines [[a]], [k=1], [k=2], [[a]]: the section
    is not re-opened between the two lines of [k], yet the header that
    follows them empties it, the table returned holds nothing under [a] and
    both output lines read [k=undefined].  The claim says that the table keeps
    the translation of [2] and that both lines carry it. *)
Lemma reopened_afterwards_loses_last_write :
  let fileContent := join_lines ["[a]"; "k=1"; "k=2"; "[a]"] in
  let env := sample_env fileContent JNull in
  (processIniFile env "f.ini" "auto" "fr" "http://lt").2 = Ok {[ "a" := ∅ ]}
  ∧ In (file_write "./f_translated.ini"
          (join_lines ["[a]"; "k=undefined"; "k=undefined"; "[a]"; ""]))
       (main env options_ini "f.ini").1.
Proof. split; vm_compute; [reflexivity|tauto]. Qed.

(** X20: the last write wins.  Take the last key-value line that assigns key
    [k] (other than [__proto__]) in section [s], and suppose that no later line
    re-creates [s], be it a header naming [s] or the implicit opening of
    [default].  Then the table returned by the first loop holds under [s] and
    [k] what [translateText] answered for the value of that line, and every
    turn of the second loop for a line of key [k] in section [s] appends [k=]
    followed by that same text. *)
Theorem last_write_wins env from to apiUrl fileContent pre line post k v t tc cs :
  parseIniWithComments fileContent = pre ++ line :: post →
  stores line = Some (k, v) →
  k ≠ "__proto__" →
  untouched (next_section (section_after "" pre) line) k
            (next_section (section_after "" pre) line) post = true →
  for_of (pass1_step env from to apiUrl) (∅, "") (parseIniWithComments fileContent)
    = (t, Ok (tc, cs)) →
  ∃ t1 x,
    translateText env v from to apiUrl = (t1, Ok x)
    ∧ cell tc (next_section (section_after "" pre) line) k = Some x
    ∧ ∀ i line_i v_i t_i out_i cs_i,
        parseIniWithComments fileContent !! i = Some line_i →
        stores line_i = Some (k, v_i) →
        next_section cs_i line_i = next_section (section_after "" pre) line →
        for_of (pass2_step tc) ("", "") (take i (parseIniWithComments fileContent))
          = (t_i, Ok (out_i, cs_i)) →
        for_of (pass2_step tc) ("", "") (take (S i) (parseIniWithComments fileContent))
          = (t_i, Ok ((if truthy cs_i then out_i else out_i +:+ "[default]" +:+ nl)
                        +:+ k +:+ "=" +:+ jstext_text x +:+ nl,
                      next_section (section_after "" pre) line)).
Proof.
  intros Hparse Hs Hk Hun Hrun.
  assert (classified line) as Hcl.
  { pose proof (parse_classified fileContent) as Hall. rewrite Hparse in Hall.
    apply Forall_app in Hall as [_ Hall]. by inversion Hall. }
  rewrite Hparse in Hrun.
  apply for_of_app_ok in Hrun as (t1 & [tc1 cs1] & t2 & Hpre & Hrun & _).
  apply for_of_cons_ok in Hrun as (t3 & [tc2 cs2] & t4 & Hstep & Hpost & _).
  apply pass1_loop_ok in Hpre as [-> _].
  destruct (pass1_step_written _ _ _ _ _ _ _ _ _ _ _ _ Hs Hk Hstep) as (t5 & x & Hx & Hcell).
  apply pass1_step_ok in Hstep as (-> & _).
  rewrite <- (pass1_loop_untouched _ _ _ _ _ _ _ _ _ _ _ _ Hpost Hun) in Hcell.
  rewrite (stored_value_classified _ _ _ _ _ _ _ Hcl Hs) in Hx.
  exists t5, x. split_and!; [done..|].
  intros i line_i v_i t_i out_i cs_i Hi Hsi Hsec Hrun.
  rewrite (for_of_take_S _ _ _ _ _ _ _ Hi Hrun).
  rewrite (pass2_step_store _ _ _ _ _ _ Hsi), Hsec.
  destruct (cell_property_text _ _ _ _ Hcell) as (o & -> & ->).
  simpl. by rewrite app_nil_r.
Qed.

Lemma last_write_wins_witness :
  let fileContent := join_lines ["[a]"; "k=1"; "k=2"] in
  let env := sample_env fileContent JNull in
  let tc : TranslatedContent := {[ "a" := {[ "k" := text "<2>" ]} ]} in
  ∃ t1 x,
    translateText env "2" "auto" "fr" "http://lt" = (t1, Ok x)
    ∧ cell tc "a" "k" = Some x
    ∧ ∀ i line_i v_i t_i out_i cs_i,
        parseIniWithComments fileContent !! i = Some line_i →
        stores line_i = Some ("k", v_i) →
        next_section cs_i line_i = "a" →
        for_of (pass2_step tc) ("", "") (take i (parseIniWithComments fileContent))
          = (t_i, Ok (out_i, cs_i)) →
        for_of (pass2_step tc) ("", "") (take (S i) (parseIniWithComments fileContent))
          = (t_i, Ok ((if truthy cs_i then out_i else out_i +:+ "[default]" +:+ nl)
                        +:+ "k" +:+ "=" +:+ jstext_text x +:+ nl, "a")).
Proof.
  apply (last_write_wins (sample_env (join_lines ["[a]"; "k=1"; "k=2"]) JNull)
           "auto" "fr" "http://lt" (join_lines ["[a]"; "k=1"; "k=2"])
           [classify "[a]"; classify "k=1"] (classify "k=2") [] "k" "2"
           [ console_log "Translating text: 1";
             http_post "http://lt/translate" {| q := "1"; source := "auto"; target := "fr" |};
             console_log "Translating text: 2";
             http_post "http://lt/translate" {| q := "2"; source := "auto"; target := "fr" |} ]
           {[ "a" := {[ "k" := text "<2>" ]} ]} "a").
  - reflexivity.
  - reflexivity.
  - discriminate.
  - reflexivity.
  - vm_compute. reflexivity.
Defined.

(** * The claims about the translation client *)

(** A rejected request is rethrown as it came. *)
Lemma translateText_rejected env txt from to apiUrl e :
  axios_post env (apiUrl +:+ "/translate") {| q := txt; source := from; target := to |}
    = Throw e →
  translateText env txt from to apiUrl
  = ([ console_log ("Translating text: " +:+ txt);
       http_post (apiUrl +:+ "/translate") {| q := txt; source := from; target := to |};
       console_error "Translation error:" (Some e) ], Throw e).
Proof. intros H. unfold translateText. simpl. by rewrite H. Qed.

(** A [null] body makes the property access throw, and that is rethrown. *)
Lemma translateText_null_body env txt from to apiUrl :
  axios_post env (apiUrl +:+ "/translate") {| q := txt; source := from; target := to |}
    = Ok data_null →
  ∃ e, (translateText env txt from to apiUrl).2 = Throw e.
Proof. intros H. unfold translateText. simpl. rewrite H. by eexists. Qed.

Lemma translateText_answer env txt from to apiUrl s :
  axios_post env (apiUrl +:+ "/translate") {| q := txt; source := from; target := to |}
    = Ok (data_text s) →
  (translateText env txt from to apiUrl).2 = Ok (text s).
Proof. intros H. unfold translateText. simpl. by rewrite H. Qed.

(** C4, evaluated on a success response whose body has no [translatedText]:
    [translateText] logs nothing to the error stream and resolves to
    [undefined]; the INI pipeline then writes [greeting=undefined] and the run
    ends with status 0.  The claim says that an error is propagated. *)
Theorem missing_field_resolves_undefined :
  translateText (fieldless_env "greeting=Hello" JNull) "Hello" "auto" "fr" "http://lt"
  = ([ console_log "Translating text: Hello";
       http_post "http://lt/translate" {| q := "Hello"; source := "auto"; target := "fr" |} ],
     Ok undefined)
  ∧ main (fieldless_env "greeting=Hello" JNull) options_ini "f.ini"
    = ([ http_get "http://lt";
         console_log "Translating text: Hello";
         http_post "http://lt/translate" {| q := "Hello"; source := "auto"; target := "fr" |};
         file_write "./f_translated.ini" (join_lines ["[default]"; "greeting=undefined"; ""]);
         console_log "Translation completed successfully!" ], 0).
Proof. split; vm_compute; reflexivity. Qed.

(** * The claims about the orchestrator *)

(** C3, refuted with both flags set: no format error is raised, the service
    is probed and called, the file is processed as JSON and the run ends with
    status 0. *)
Lemma both_flags_run_as_json :
  json options_both = true ∧ ini options_both = true
  ∧ main (sample_env "" (JString "hello")) options_both "f.json"
    = ([ http_get "http://lt";
         console_log "Translating text: hello";
         http_post "http://lt/translate" {| q := "hello"; source := "auto"; target := "fr" |};
         file_write "./f_translated.json" "(json)";
         console_log "Translation completed successfully!" ], 0).
Proof. split_and!; vm_compute; reflexivity. Qed.

(** C3, amended: when neither format flag is set the run ends with status 1
    after one message on the error stream and nothing else, hence before any
    network call; for an existing file the message is the one about the
    format.  When both flags are set nothing is refused: the run is the one
    of [--json] alone. *)
Theorem format_flags env options filePath :
  (json options = false → ini options = false →
   main env options filePath
   = ([ console_error (if existsSync env filePath
                       then "Error: Please specify either --json or --ini"
                       else "Error: File does not exist") None ], 1))
  ∧ (json options = true →
     main env options filePath
     = main env {| json := true; ini := false; from := from options; to := to options;
                   libretranslateUrl := libretranslateUrl options |} filePath).
Proof.
  split.
  - intros Hj Hi. unfold main. rewrite Hj, Hi. by destruct (existsSync env filePath).
  - intros Hj. unfold main, main_try. simpl. by rewrite Hj.
Qed.

Lemma format_flags_witness :
  main (sample_env "" JNull) options_none "f.json"
  = ([ console_error "Error: Please specify either --json or --ini" None ], 1)
  ∧ main (sample_env "" (JString "hello")) options_both "f.json"
    = main (sample_env "" (JString "hello")) options_json "f.json".
Proof.
  destruct (format_flags (sample_env "" JNull) options_none "f.json") as [Hnone _].
  destruct (format_flags (sample_env "" (JString "hello")) options_both "f.json")
    as [_ Hboth].
  split; [apply Hnone; reflexivity|apply Hboth; reflexivity].
Defined.

(** ** What a pipeline leaves in the trace *)

Lemma faithful_ret {A} (a : A) : faithful (mret a : M A).
Proof. split; [constructor|]. intros _ _. constructor. Qed.

Lemma faithful_lift {A} (r : result A) : faithful (lift r).
Proof. split; [constructor|]. intros _ _. constructor. Qed.

Lemma faithful_bind {A B} (m : M A) (f : A → M B) :
  faithful m → (∀ a, faithful (f a)) → faithful (m ≫= f).
Proof.
  intros [Hw Hf] Hk. destruct m as [t [a|e]]; unfold mbind, M_bind; [|by split].
  specialize (Hk a). destruct (f a) as [t' r]. destruct Hk as [Hw' Hf']. simpl in *.
  split; simpl.
  - apply Forall_app. by split.
  - intros b ->. apply Forall_app. split; [by eapply Hf|by eapply Hf'].
Qed.

Lemma faithful_fmap {A B} (f : A → B) (m : M A) : faithful m → faithful (f <$> m).
Proof.
  intros [Hw Hf]. destruct m as [t [a|e]]; unfold fmap, M_fmap; [|by split].
  split; [done|]. intros _ _. by eapply Hf.
Qed.

Lemma faithful_Promise_all {A} (ps : list (M A)) :
  Forall faithful ps → faithful (Promise_all ps).
Proof.
  induction 1 as [|[t r] ps [Hw Hf] _ [IHw IHf]]; [apply faithful_ret|].
  cbn [Promise_all]. destruct (Promise_all ps) as [t' rs]. simpl in *. split; simpl.
  - apply Forall_app. by split.
  - intros l Hl. destruct r as [a|e]; [|done]. destruct rs as [l'|e]; [|done].
    apply Forall_app. split; [by eapply Hf|by eapply IHf].
Qed.

Lemma faithful_for_of {S X} (body : S → X → M S) (xs : list X) :
  (∀ st x, faithful (body st x)) → ∀ st, faithful (for_of body st xs).
Proof.
  intros Hbody. induction xs as [|x xs IH]; intros st; [apply faithful_ret|].
  cbn [for_of]. by apply faithful_bind.
Qed.

Lemma faithful_translateText env txt from to apiUrl :
  faithful (translateText env txt from to apiUrl).
Proof.
  unfold translateText. simpl.
  destruct (axios_post env _ _) as [[| |s]|e]; simpl; split;
    repeat constructor; by intros.
Qed.

Lemma faithful_pass1_step env from to apiUrl st line :
  faithful (pass1_step env from to apiUrl st line).
Proof.
  destruct st as [tc cs]. destruct (stores line) as [[k v]|] eqn:Hs.
  - rewrite (pass1_step_store _ _ _ _ _ _ _ k v Hs). apply faithful_bind.
    + unfold stored_value. destruct (truthy (trim v));
        [apply faithful_translateText|apply faithful_ret].
    + intros x. apply faithful_bind; [apply faithful_lift|]. intros. apply faithful_ret.
  - destruct (decide (type line = section)) as [Ht|Ht].
    + rewrite pass1_step_header; [|done]. apply faithful_ret.
    + rewrite pass1_step_skip; [|done..]. apply faithful_ret.
Qed.

Lemma faithful_processIniFile env filePath from to apiUrl :
  faithful (processIniFile env filePath from to apiUrl).
Proof.
  unfold processIniFile. apply faithful_bind; [apply faithful_lift|].
  intros fc. apply faithful_fmap, faithful_for_of. intros. apply faithful_pass1_step.
Qed.

Lemma faithful_pass2 tc st lines : faithful (for_of (pass2_step tc) st lines).
Proof.
  apply faithful_for_of. clear. intros st line.
  pose proof (pass2_step_silent tc st line) as H.
  destruct (pass2_step tc st line) as [t r]. simpl in H. subst t.
  split; [constructor|]. intros _ _. constructor.
Qed.

(** Induction on a JSON value, with the hypotheses for its parts. *)
Lemma JsonValue_nested_ind (P : JsonValue → Prop) :
  P JUndefined → P JNull → (∀ b, P (JBool b)) → (∀ n, P (JNumber n)) →
  (∀ s, P (JString s)) →
  (∀ items, Forall P items → P (JArray items)) →
  (∀ entries, Forall (λ e, P e.2) entries → P (JObject entries)) →
  ∀ v, P v.
Proof.
  intros Hu Hn Hb Hnum Hs Ha Ho. fix IH 1.
  intros [| |b|n|s|items|entries];
    [exact Hu|exact Hn|apply Hb|apply Hnum|apply Hs| |].
  - apply Ha. induction items as [|x items IHitems]; constructor; [apply IH|done].
  - apply Ho. induction entries as [|[k x] entries IHentries]; constructor;
      [apply IH|done].
Qed.

Lemma faithful_translateJsonValue env from to apiUrl (v : JsonValue) :
  faithful (translateJsonValue env v from to apiUrl).
Proof.
  induction v as [| | | |s|items IH|entries IH] using JsonValue_nested_ind;
    try apply faithful_ret.
  - cbn [translateJsonValue]. destruct (truthy (trim s)); [|apply faithful_ret].
    apply faithful_fmap, faithful_translateText.
  - cbn [translateJsonValue]. apply faithful_fmap, faithful_Promise_all.
    by apply Forall_fmap.
  - cbn [translateJsonValue]. apply faithful_fmap.
    generalize (@nil (string * JsonValue)).
    induction IH as [|[k x] es Hx _ IHes]; intros acc; [apply faithful_ret|].
    apply faithful_bind; [done|]. intros r. apply IHes.
Qed.

Lemma faithful_processJsonFile env filePath from to apiUrl :
  faithful (processJsonFile env filePath from to apiUrl).
Proof.
  unfold processJsonFile. apply faithful_bind; [apply faithful_lift|]. intros raw.
  apply faithful_bind; [apply faithful_lift|]. intros v. apply faithful_translateJsonValue.
Qed.

(** ** The orchestrator *)

Lemma checkLibreTranslateAccess_run env url :
  ∃ b, checkLibreTranslateAccess env url = ([http_get url], Ok b)
       ∧ (b = true ↔ axios_get env url = Ok 200).
Proof.
  unfold checkLibreTranslateAccess. simpl. destruct (axios_get env url) as [status|e]; simpl.
  - eexists. split; [done|]. rewrite bool_decide_eq_true. split; [by intros ->|by intros [= ->]].
  - by exists false.
Qed.

Ltac trace_solver :=
  repeat (apply Forall_app; split); repeat (apply Forall_cons; split);
  try apply Forall_nil; try done; eauto.

(** No event of an explicit trace has the property that [H] claims. *)
Ltac no_such_event H :=
  repeat (apply Exists_cons in H as [H|H]; [done|]); by apply Exists_nil in H.

Ltac early_exit :=
  split_and!; intros; simpl in *; try done; try (by trace_solver);
  match goal with
  | H : Exists _ _ |- _ => exfalso; no_such_event H
  end.

(** The body of the [try]: a write comes last and only on success, and a
    success has seen no call fail. *)
Lemma main_try_outcome env options filePath :
  (∀ e, (main_try env options filePath).2 = Throw e →
        Forall (λ ev, is_write ev = false) (main_try env options filePath).1)
  ∧ (∀ u, (main_try env options filePath).2 = Ok u →
          Forall (λ ev, is_failed_call ev = false) (main_try env options filePath).1).
Proof.
  unfold main_try. destruct (json options).
  - destruct (faithful_processJsonFile env filePath (from options) (to options)
                (libretranslateUrl options)) as [Hw Hf].
    destruct (processJsonFile _ _ _ _ _) as [t [v|e]]; simpl in *; [|by split].
    specialize (Hf v eq_refl).
    destruct v; simpl; try (by split; [intros ?; rewrite ?app_nil_r|done]);
      destruct (writeFileSync env _ _) as [[]|e]; simpl; split; intros; try done;
      rewrite ?app_nil_r; trace_solver.
  - destruct (readFileSync env filePath) as [fc|e]; simpl; [|by split].
    destruct (faithful_processIniFile env filePath (from options) (to options)
                (libretranslateUrl options)) as [Hw Hf].
    destruct (processIniFile _ _ _ _ _) as [t [tc|e]]; simpl in *; [|by split].
    specialize (Hf tc eq_refl).
    destruct (faithful_pass2 tc ("", "") (parseIniWithComments fc)) as [Hw2 Hf2].
    destruct (for_of (pass2_step tc) _ _) as [t2 [[out cs]|e]]; simpl in *;
      [|by split; intros; try done; trace_solver].
    specialize (Hf2 _ eq_refl).
    destruct (writeFileSync env _ _) as [[]|e]; simpl; split; intros; try done;
      rewrite ?app_nil_r; trace_solver.
Qed.

(** ** The first loop fails on a failed call only *)

Lemma translateText_throws env txt from to apiUrl t e :
  translateText env txt from to apiUrl = (t, Throw e) →
  Exists (λ ev, is_failed_call ev = true) t.
Proof.
  unfold translateText. simpl.
  destruct (axios_post env _ _) as [[| |s]|e']; simpl; intros [= <- _]; try done;
    do 2 apply Exists_cons_tl; by apply Exists_cons_hd.
Qed.

Lemma pass1_step_throws env from to apiUrl tc cs line t e :
  opened tc cs →
  pass1_step env from to apiUrl (tc, cs) line = (t, Throw e) →
  Exists (λ ev, is_failed_call ev = true) t.
Proof.
  intros Hopen. destruct (stores line) as [[k v]|] eqn:Hs.
  - rewrite (pass1_step_store _ _ _ _ _ _ _ k v Hs). unfold stored_value, next_section.
    rewrite (stores_key_line _ _ Hs), Hs.
    assert (is_Some ((if truthy cs then tc else <["default" := ∅]> tc)
                       !! (if truthy cs then cs else "default"))) as [o Ho].
    { destruct Hopen as [Hcs|Hsome]; destruct (truthy cs); try done.
      all: rewrite lookup_insert_eq; by eexists. }
    destruct (truthy (trim v)).
    + destruct (translateText env v from to apiUrl) as [t1 [x|e1]] eqn:Hx.
      * unfold mbind, M_bind, lift, section_store. rewrite Ho. by simpl.
      * unfold mbind, M_bind. intros [= <- _]. by eapply translateText_throws.
    + rewrite bind_ret_l. unfold mbind, M_bind, lift, section_store. rewrite Ho. by simpl.
  - destruct (decide (type line = section)) as [Ht|Ht].
    + rewrite pass1_step_header; [|done]. by destruct (match_section (content line)).
    + by rewrite pass1_step_skip.
Qed.

Lemma pass1_step_opened env from to apiUrl tc cs line t tc' cs' :
  opened tc cs →
  pass1_step env from to apiUrl (tc, cs) line = (t, Ok (tc', cs')) →
  opened tc' cs'.
Proof.
  intros Hopen Hstep. destruct (stores line) as [[k v]|] eqn:Hs.
  - apply pass1_step_ok in Hstep as (_ & _ & Hsome). right. apply Hsome. by eexists.
  - destruct (decide (type line = section)) as [Ht|Ht].
    + rewrite pass1_step_header in Hstep; [|done].
      destruct (match_section (content line)) as [name|]; injection Hstep as _ <- <-;
        [|done].
      right. rewrite lookup_insert_eq. by eexists.
    + rewrite pass1_step_skip in Hstep; [|done..]. by injection Hstep as _ <- <-.
Qed.

(** Started on the empty table, the first loop never reads a section that
    it has not created: it fails only when a translate call has failed. *)
Lemma pass1_loop_throws env from to apiUrl lines : ∀ tc cs t e,
  opened tc cs →
  for_of (pass1_step env from to apiUrl) (tc, cs) lines = (t, Throw e) →
  Exists (λ ev, is_failed_call ev = true) t.
Proof.
  induction lines as [|line lines IH]; intros tc cs t e Hopen; [done|].
  cbn [for_of].
  destruct (pass1_step env from to apiUrl (tc, cs) line) as [t1 [[tc1 cs1]|e1]] eqn:Hstep.
  - unfold mbind, M_bind.
    destruct (for_of _ (tc1, cs1) lines) as [t2 r] eqn:Hrest. intros [= <- ->].
    apply Exists_app. right. eapply IH; [|done]. by eapply pass1_step_opened.
  - unfold mbind, M_bind. intros [= <- _]. by eapply pass1_step_throws.
Qed.

(** * The claims about the JSON walker *)

Lemma plain_keys_array (items : list JsonValue) :
  plain_keys (JArray items) ↔ Forall plain_keys items.
Proof.
  cbn [plain_keys]. induction items as [|x items IH]; [by split; [constructor|]|].
  rewrite Forall_cons, <- IH. done.
Qed.

Lemma plain_keys_object (entries : list (string * JsonValue)) :
  plain_keys (JObject entries)
  ↔ NoDup (entries.*1) ∧ ("__proto__" ∉ entries.*1) ∧ Forall (λ e, plain_keys e.2) entries.
Proof.
  cbn [plain_keys].
  assert ((fix all (l : list (string * JsonValue)) : Prop :=
             match l with
             | [] => True
             | (_, x) :: l' => plain_keys x ∧ all l'
             end) entries ↔ Forall (λ e, plain_keys e.2) entries) as ->; [|done].
  induction entries as [|[k x] entries IH]; [by split; [constructor|]|].
  rewrite Forall_cons, <- IH. done.
Qed.

Lemma Promise_all_ok {A} (ps : list (M A)) (t : list event) (l : list A) :
  Promise_all ps = (t, Ok l) → Forall2 (λ p a, ∃ t', p = (t', Ok a)) ps l.
Proof.
  revert t l. induction ps as [|[t1 r] ps IH]; intros t l.
  - intros [= _ <-]. constructor.
  - cbn [Promise_all]. destruct (Promise_all ps) as [t2 rs].
    destruct r as [a|e]; [|done]. destruct rs as [l'|e]; [|done].
    intros [= _ <-]. constructor; [by eexists|]. by eapply IH.
Qed.

Lemma entries_replace_fresh (k : string) (v : JsonValue) (es : list (string * JsonValue)) :
  k ∉ es.*1 → entries_replace k v es = None.
Proof.
  induction es as [|[k' v'] es IH]; [done|]. simpl. intros Hk.
  apply not_elem_of_cons in Hk as [Hne Hk].
  rewrite bool_decide_eq_false_2; [|done]. by rewrite IH.
Qed.

Lemma property_assign_fresh (k : string) (v : JsonValue) (es : list (string * JsonValue)) :
  k ≠ "__proto__" → k ∉ es.*1 → property_assign k v es = es ++ [(k, v)].
Proof.
  intros Hp Hk. unfold property_assign.
  rewrite bool_decide_eq_false_2; [|done]. by rewrite entries_replace_fresh.
Qed.

(** The walker keeps the prototype setter away from [result]: the key
    [__proto__] never becomes an own property. *)
Lemma property_assign_proto (v : JsonValue) (es : list (string * JsonValue)) :
  property_assign "__proto__" v es = es.
Proof. done. Qed.

(** On values whose objects have no key [__proto__], a walk that succeeds
    returns a value of the same shape: same keys in the same order, same
    lengths, same leaves except the strings. *)
Lemma translateJsonValue_shape env from to apiUrl (v : JsonValue) :
  plain_keys v → ∀ t v',
  translateJsonValue env v from to apiUrl = (t, Ok v') → same_shape v v'.
Proof.
  induction v as [| | | |s|items IH|entries IH] using JsonValue_nested_ind;
    intros Hplain t v'; cbn [translateJsonValue].
  1-4: intros [= _ <-]; constructor.
  - destruct (truthy (trim s)).
    + intros (x & _ & ->)%fmap_ok. constructor.
    + intros [= _ <-]. apply (shape_string s (text s)).
  - intros (l & Hall & ->)%fmap_ok. constructor.
    apply Promise_all_ok in Hall. apply plain_keys_array in Hplain.
    revert l Hall. induction items as [|x items IHitems]; intros l Hall.
    + inversion Hall. constructor.
    + inversion Hall as [|? a ? l' (t' & Hx) Hrest]; subst.
      inversion IH; inversion Hplain; subst. constructor; eauto.
  - intros (res & Hloop & ->)%fmap_ok. constructor.
    apply plain_keys_object in Hplain as (Hnodup & Hproto & Hplain).
    enough (∀ acc t res,
               (∀ k, k ∈ entries.*1 → k ∉ acc.*1) →
               (fix loop (es result : list (string * JsonValue)) :=
                  match es with
                  | [] => mret result
                  | (k, val) :: es' =>
                      translateJsonValue env val from to apiUrl ≫=
                        (λ r, loop es' (property_assign k r result))
                  end) entries acc = (t, Ok res) →
               ∃ es', res = acc ++ es'
                      ∧ Forall2 (λ e e', e.1 = e'.1 ∧ same_shape e.2 e'.2) entries es')
      as Hgen.
    { destruct (Hgen [] t res) as (es' & -> & H); [by intros; apply not_elem_of_nil|done|done]. }
    clear t res Hloop.
    induction entries as [|[k x] entries IHentries]; intros acc t res Hfresh.
    + intros [= _ <-]. exists []. by rewrite app_nil_r.
    + intros (t1 & r & t2 & Hx & Hrest & _)%bind_ok.
      inversion IH as [|? ? IHx IHrest]; subst.
      inversion Hplain as [|? ? Hpx Hprest]; subst.
      rewrite fmap_cons in Hnodup, Hproto, Hfresh. cbn [fst] in *.
      apply NoDup_cons in Hnodup as [Hk Hnodup].
      apply not_elem_of_cons in Hproto as [Hkp Hproto].
      rewrite property_assign_fresh in Hrest; [|done|apply Hfresh; by left].
      assert (∀ k', k' ∈ entries.*1 → k' ∉ (acc ++ [(k, r)]).*1) as Hfresh'.
      { intros k' Hk'. rewrite fmap_app. intros [Hin|Hin]%elem_of_app.
        - by apply (Hfresh k'); [right|].
        - apply list_elem_of_singleton in Hin. simpl in Hin. by subst. }
      destruct (IHentries IHrest Hnodup Hproto Hprest _ _ _ Hfresh' Hrest)
        as (es' & -> & Hes').
      exists ((k, r) :: es'). rewrite <- app_assoc. split; [done|].
      constructor; [|done]. split; [done|]. by eapply IHx.
Qed.

(** C7, evaluated on the object with the two keys [__proto__] and [greeting]:
    both strings are sent to translation, but the assignment of the first
    answer goes to the prototype setter and the object returned owns the key
    [greeting] alone.  The claim says that the key set is unchanged. *)
Theorem proto_key_is_dropped :
  translateJsonValue (sample_env "" JNull)
    (JObject [("__proto__", JString "hello"); ("greeting", JString "hi")])
    "auto" "fr" "http://lt"
  = ([ console_log "Translating text: hello";
       http_post "http://lt/translate" {| q := "hello"; source := "auto"; target := "fr" |};
       console_log "Translating text: hi";
       http_post "http://lt/translate" {| q := "hi"; source := "auto"; target := "fr" |} ],
     Ok (JObject [("greeting", JString "<hi>")])).
Proof. vm_compute. reflexivity. Qed.

(** * Further properties of the text functions and of the classifier *)

Lemma trimStart_decomp (s : string) :
  ∃ w, all_white w = true ∧ s = w +:+ trimStart s.
Proof.
  induction s as [|c s (w & Hw & IH)]; [by exists ""|].
  cbn [trimStart]. destruct (is_white c) eqn:Hc; [|by exists ""].
  exists (String c w). split; [by simpl; rewrite Hc|].
  rewrite append_cons. by rewrite <- IH.
Qed.

Lemma trimEnd_decomp (s : string) :
  ∃ w, all_white w = true ∧ s = trimEnd s +:+ w.
Proof.
  induction s as [|c s (w & Hw & IH)]; [by exists ""|].
  cbn [trimEnd]. destruct (is_white c && negb (truthy (trimEnd s))) eqn:E.
  - apply andb_true_iff in E as [Hc Hr]. destruct (trimEnd s); [|done].
    exists (String c w). split; [by simpl; rewrite Hc|]. by rewrite IH.
  - exists w. split; [done|]. rewrite append_cons. by rewrite <- IH.
Qed.

Lemma trimStart_trim (s : string) : trimStart (trim s) = trim s.
Proof.
  unfold trim. destruct (trimStart_head s) as [->|(c & r & -> & Hc)]; [done|].
  cbn [trimEnd]. rewrite Hc. simpl. by rewrite Hc.
Qed.

(** X1: [trim] removes a run of white characters at each end and nothing
    else, and what it returns has none left to remove at either end. *)
Theorem trim_decomposition (s : string) :
  (∃ w1 w2, all_white w1 = true ∧ all_white w2 = true ∧ s = w1 +:+ trim s +:+ w2)
  ∧ trimStart (trim s) = trim s
  ∧ trimEnd (trim s) = trim s.
Proof.
  split_and!; [|apply trimStart_trim|apply trimEnd_idemp].
  destruct (trimStart_decomp s) as (w1 & Hw1 & H1).
  destruct (trimEnd_decomp (trimStart s)) as (w2 & Hw2 & H2).
  exists w1, w2. split_and!; [done..|]. unfold trim. by rewrite <- H2.
Qed.

Lemma join_lines_cons (l : string) (ls : list string) :
  ls ≠ [] → join_lines (l :: ls) = l +:+ nl +:+ join_lines ls.
Proof. by destruct ls. Qed.

Lemma join_split (s : string) : join_lines (split_lines s) = s.
Proof.
  induction s as [|c s IH]; [done|]. cbn [split_lines].
  pose proof (split_lines_nonempty s) as Hne.
  case_bool_decide as Hc.
  - rewrite join_lines_cons; [|done]. by rewrite IH, Hc.
  - destruct (split_lines s) as [|l ls]; [done|].
    destruct ls as [|l' ls].
    + simpl in *. by rewrite IH.
    + rewrite join_lines_cons in IH; [|done]. rewrite join_lines_cons; [|done].
      rewrite append_cons. by rewrite IH.
Qed.

(** X2: the classifier keeps every line of the file, in order, with its text
    untouched: the contents of the classified lines are the pieces that the
    line feeds separate, none of them holds a line feed, and joined by line
    feeds they are the file again. *)
Theorem parse_keeps_the_text (fileContent : string) :
  content <$> parseIniWithComments fileContent = split_lines fileContent
  ∧ join_lines (content <$> parseIniWithComments fileContent) = fileContent
  ∧ Forall (λ line, count_lf (content line) = 0%nat) (parseIniWithComments fileContent)
  ∧ length (parseIniWithComments fileContent) = S (count_lf fileContent).
Proof.
  assert (content <$> parseIniWithComments fileContent = split_lines fileContent) as E.
  { unfold parseIniWithComments. rewrite <- list_fmap_compose.
    rewrite <- (list_fmap_id (split_lines fileContent)) at 2.
    apply list_fmap_ext. intros i raw _. apply classify_content. }
  split_and!; [done|by rewrite E, join_split| |].
  - eapply Forall_impl; [apply parse_classified|]. apply classified_content.
  - rewrite parse_length. clear E.
    induction fileContent as [|c s IH]; [done|]. cbn [split_lines count_lf].
    pose proof (split_lines_nonempty s) as Hne.
    case_bool_decide; [simpl; by rewrite IH|].
    destruct (split_lines s); [done|]. simpl in *. lia.
Qed.

Lemma trim_head_not_white (s : string) (c : ascii) (r : string) :
  trim s = String c r → is_white c = false.
Proof.
  unfold trim. destruct (trimStart_head s) as [->|(d & r' & -> & Hd)]; [done|].
  cbn [trimEnd]. rewrite Hd. simpl. by intros [= <- _].
Qed.

Lemma break_at_equals_spec (s k v : string) :
  break_at_equals s = Some (k, v) →
  s = k +:+ "=" +:+ v ∧ occurs "=" k = false.
Proof.
  revert k. induction s as [|c s IH]; intros k; [done|]. simpl.
  case_bool_decide as Hc.
  - intros [= <- <-]. by rewrite Hc.
  - destruct (break_at_equals s) as [[k' v']|]; [|done]. simpl. intros [= <- <-].
    destruct (IH k' eq_refl) as [-> Hk]. split; [done|]. simpl.
    by rewrite bool_decide_eq_false_2.
Qed.

Lemma classify_cases (raw : string) :
  (key (classify raw) = None ∧ value (classify raw) = None)
  ∨ ∃ k0 v0, match_key_value (trim raw) = Some (k0, v0)
             ∧ classify raw = {| type := key_line; content := raw;
                                 key := Some (trim k0); value := Some (trim v0) |}.
Proof.
  unfold classify. repeat case_match; try (by left). right. by eexists _, _.
Qed.

Lemma key_of_trimmed_line (raw k0 v0 : string) :
  match_key_value (trim raw) = Some (k0, v0) → truthy (trim k0) = true.
Proof.
  intros E. pose proof (match_key_value_break _ _ _ E) as Hb. revert E.
  unfold match_key_value. rewrite Hb. simpl.
  destruct (truthy k0 && no_line_terminator v0) eqn:E2; [|done].
  intros _. apply andb_true_iff in E2 as [Hk0 _].
  destruct (trim raw) as [|c r] eqn:Ht; [done|].
  pose proof (trim_head_not_white _ _ _ Ht) as Hc.
  simpl in Hb. destruct (bool_decide (c = "="%char)); [by injection Hb as <- _|].
  destruct (break_at_equals r) as [[k' v']|]; [|done]. injection Hb as <- _.
  unfold trim. cbn [trimStart]. rewrite Hc. cbn [trimEnd]. by rewrite Hc.
Qed.

(** X3: the fields of a classified line.  A line has a key exactly when it has
    a value, and then its type is the key type; the key and the value are
    trimmed, and the key is never empty, so that the test
    [line.key && line.value] of the two loops is a test on the value alone. *)
Theorem classified_fields (raw : string) :
  (is_Some (key (classify raw)) ↔ is_Some (value (classify raw)))
  ∧ (is_Some (key (classify raw)) → type (classify raw) = key_line)
  ∧ ∀ k v, key (classify raw) = Some k → value (classify raw) = Some v →
           truthy k = true ∧ trim k = k ∧ trim v = v
           ∧ stores (classify raw) = (if truthy v then Some (k, v) else None).
Proof.
  destruct (classify_cases raw) as [[Hk Hv]|(k0 & v0 & E & Hc)].
  - rewrite Hk, Hv. split_and!; [by split; intros []|by intros []|done].
  - unfold stores. rewrite Hc. simpl. split_and!; [done|done|].
    intros k v [= <-] [= <-]. rewrite (key_of_trimmed_line _ _ _ E).
    by rewrite !trim_idemp.
Qed.

(** X4: the first equals sign is the split point.  For a line with a key, the
    trimmed line is [k0=v0] where [k0] holds no equals sign and [v0] no line
    terminator; the key is [k0] trimmed and the value is [v0] trimmed, equals
    signs included. *)
Theorem first_equals_splits (raw k : string) :
  key (classify raw) = Some k →
  ∃ k0 v0, trim raw = k0 +:+ "=" +:+ v0
           ∧ occurs "=" k0 = false
           ∧ no_line_terminator v0 = true
           ∧ k = trim k0
           ∧ value (classify raw) = Some (trim v0).
Proof.
  destruct (classify_cases raw) as [[-> _]|(k1 & v1 & E & ->)]; [done|].
  simpl. intros [= <-].
  pose proof (match_key_value_break _ _ _ E) as Hb.
  destruct (break_at_equals_spec _ _ _ Hb) as [Hs Hk].
  eexists _, _. split_and!; [done|done| |done|done].
  revert E. unfold match_key_value. rewrite Hb. simpl.
  destruct (truthy _ && no_line_terminator _) eqn:E2; [|done].
  by apply andb_true_iff in E2 as [_ ?].
Qed.

Lemma first_equals_splits_witness :
  ∃ k0 v0, trim " url = http://x?a=b " = k0 +:+ "=" +:+ v0
           ∧ occurs "=" k0 = false
           ∧ no_line_terminator v0 = true
           ∧ "url" = trim k0
           ∧ value (classify " url = http://x?a=b ") = Some (trim v0).
Proof. apply (first_equals_splits " url = http://x?a=b " "url"). reflexivity. Defined.

Lemma lazy_dots_close_prefix (r m : string) :
  lazy_dots_close_end (trimEnd r) = Some m →
  ∃ name, lazy_dots_close r = Some name
          ∧ occurs "]" name = false
          ∧ (m = name ∨ ∃ rest, m = name +:+ "]" +:+ rest).
Proof.
  revert m. induction r as [|c r IH]; intros m; [done|]. cbn [trimEnd lazy_dots_close].
  case_bool_decide as Hclose.
  - subst c. change (is_white "]") with false. cbn [andb lazy_dots_close_end].
    destruct (trimEnd r) as [|d r'] eqn:E.
    + intros [= <-]. exists "". split_and!; [done..|]. by left.
    + change (is_line_terminator "]") with false. cbv iota.
      intros (m' & _ & ->)%fmap_Some. exists "". split_and!; [done..|].
      right. by exists m'.
  - destruct (is_white c && negb (truthy (trimEnd r))); [done|].
    cbn [lazy_dots_close_end]. destruct (trimEnd r) as [|d r'] eqn:E.
    + by rewrite bool_decide_eq_false_2.
    + destruct (is_line_terminator c); [done|].
      destruct (lazy_dots_close_end (String d r')) as [m'|] eqn:E'; [|done].
      simpl. intros [= <-]. destruct (IH m' eq_refl) as (name & -> & Hname & Hm).
      exists (String c name). split_and!; [done| |].
      * simpl. by rewrite bool_decide_eq_false_2.
      * destruct Hm as [->|[rest ->]]; [by left|]. right. by exists rest.
Qed.

(** X5: the name of a section.  For a line that the classifier calls a
    section, the name that the two loops read from the raw line always
    exists, holds no closing bracket, and is the text inside the brackets of
    the trimmed line up to its first closing bracket: the whole of it when it
    holds none, as in [[server]], and a proper prefix otherwise, as [a] in
    [[a]b]]. *)
Theorem section_name_read (raw : string) :
  type (classify raw) = section →
  ∃ inside name,
    match_section_line (trim raw) = Some inside
    ∧ match_section raw = Some name
    ∧ occurs "]" name = false
    ∧ (inside = name ∨ ∃ rest, inside = name +:+ "]" +:+ rest).
Proof.
  intros Ht.
  assert (is_Some (match_section_line (trim raw))) as [inside Hin].
  { revert Ht. unfold classify. repeat case_match; done. }
  exists inside. rewrite <- match_section_trimStart. revert Hin. unfold trim.
  destruct (trimStart raw) as [|c r]; [done|].
  cbn [trimEnd]. destruct (is_white c && negb (truthy (trimEnd r))); [done|].
  unfold match_section_line.
  destruct (decide (c = "["%char)) as [->|Hne].
  - intros Hm. destruct (lazy_dots_close_prefix r inside Hm) as (name & Hname & Hocc & Hrel).
    exists name. simpl. by rewrite Hname.
  - destruct c as [[] [] [] [] [] [] [] []]; try done.
Qed.

Lemma section_name_read_witness :
  ∃ inside name,
    match_section_line (trim "  [a]b]  ") = Some inside
    ∧ match_section "  [a]b]  " = Some name
    ∧ occurs "]" name = false
    ∧ (inside = name ∨ ∃ rest, inside = name +:+ "]" +:+ rest).
Proof. apply (section_name_read "  [a]b]  "). reflexivity. Defined.

Lemma pass2_step_copy tc out cs raw :
  stores (classify raw) = None →
  pass2_step tc (out, cs) (classify raw)
    = ([], Ok (out +:+ raw +:+ nl, next_section cs (classify raw))).
Proof.
  intros Hs. destruct (decide (type (classify raw) = section)) as [Ht|Ht].
  - rewrite pass2_step_header; [|done]. unfold next_section. rewrite Ht.
    assert (is_Some (match_section (content (classify raw)))) as [name ->].
    { rewrite classify_content. apply match_section_of_line.
      revert Ht. unfold classify. repeat case_match; done. }
    by rewrite classify_content.
  - rewrite pass2_step_verbatim; [|done..]. rewrite classify_content.
    unfold next_section. rewrite Hs. by destruct (type (classify raw)).
Qed.

(** X6: only key-value lines with a nonempty value are rewritten.  For every
    other line of a file - blank, comment, section header, key with an empty
    value, anything else - the turn of the second loop appends the raw line
    and a line feed, whatever the table holds, and the turn of the first loop
    sends nothing to translation; unless the line is a header, the first
    loop leaves the table and the current section as they are. *)
Theorem other_lines_are_copied env from to apiUrl tc out cs raw :
  stores (classify raw) = None →
  pass2_step tc (out, cs) (classify raw)
    = ([], Ok (out +:+ raw +:+ nl, next_section cs (classify raw)))
  ∧ (∀ st, (pass1_step env from to apiUrl st (classify raw)).1 = [])
  ∧ (type (classify raw) ≠ section →
     next_section cs (classify raw) = cs
     ∧ ∀ st, pass1_step env from to apiUrl st (classify raw) = ([], Ok st)).
Proof.
  intros Hs. split_and!; [by apply pass2_step_copy| |].
  - intros [tc1 cs1]. destruct (decide (type (classify raw) = section)) as [Ht|Ht].
    + rewrite pass1_step_header; [|done]. by case_match.
    + by rewrite pass1_step_skip.
  - intros Ht. split.
    + unfold next_section. rewrite Hs. by destruct (type (classify raw)).
    + intros st. by rewrite pass1_step_skip.
Qed.

Lemma other_lines_are_copied_witness :
  pass2_step ∅ ("[a]" +:+ nl, "a") (classify "  # note = kept ")
    = ([], Ok (("[a]" +:+ nl) +:+ "  # note = kept " +:+ nl, "a"))
  ∧ (∀ st, (pass1_step (sample_env "" JNull) "auto" "fr" "http://lt" st
              (classify "  # note = kept ")).1 = [])
  ∧ (type (classify "  # note = kept ") ≠ section →
     next_section "a" (classify "  # note = kept ") = "a"
     ∧ ∀ st, pass1_step (sample_env "" JNull) "auto" "fr" "http://lt" st
               (classify "  # note = kept ") = ([], Ok st)).
Proof.
  apply (other_lines_are_copied (sample_env "" JNull) "auto" "fr" "http://lt" ∅
           ("[a]" +:+ nl) "a" "  # note = kept "). reflexivity.
Defined.

Lemma copied_lines_join (raws : list string) (out : string) :
  raws ≠ [] →
  foldl (λ acc raw, acc +:+ raw +:+ nl) out raws = out +:+ join_lines raws +:+ nl.
Proof.
  revert out. induction raws as [|raw raws IH]; intros out Hne; [done|].
  destruct raws as [|raw' raws]; [done|].
  change (foldl (λ acc raw, acc +:+ raw +:+ nl) (out +:+ raw +:+ nl) (raw' :: raws)
          = out +:+ join_lines (raw :: raw' :: raws) +:+ nl).
  rewrite IH; [|done]. rewrite (join_lines_cons raw); [|done].
  by rewrite !append_assoc.
Qed.

Lemma pass2_loop_copies tc (raws : list string) : ∀ out cs,
  Forall (λ raw, stores (classify raw) = None) raws →
  for_of (pass2_step tc) (out, cs) (classify <$> raws)
  = ([], Ok (foldl (λ acc raw, acc +:+ raw +:+ nl) out raws,
             section_after cs (classify <$> raws))).
Proof.
  induction raws as [|raw raws IH]; intros out cs Hall; [done|].
  inversion Hall as [|? ? Hraw Hraws]; subst. rewrite fmap_cons. cbn [for_of].
  rewrite (pass2_step_copy tc out cs raw Hraw).
  unfold mbind, M_bind. rewrite IH; [|done]. done.
Qed.

Lemma pass1_loop_quiet env from to apiUrl (lines : list IniLine) : ∀ tc cs,
  Forall (λ line, stores line = None) lines →
  ∃ tc', for_of (pass1_step env from to apiUrl) (tc, cs) lines = ([], Ok (tc', section_after cs lines)).
Proof.
  induction lines as [|line lines IH]; intros tc cs Hall; [by exists tc|].
  inversion Hall as [|? ? Hline Hlines]; subst. cbn [for_of].
  assert (∃ tc1, pass1_step env from to apiUrl (tc, cs) line
                 = ([], Ok (tc1, next_section cs line))) as [tc1 ->].
  { destruct (decide (type line = section)) as [Ht|Ht].
    - rewrite pass1_step_header; [|done]. unfold next_section. rewrite Ht.
      destruct (match_section (content line)); by eexists.
    - rewrite pass1_step_skip; [|done..]. exists tc. unfold next_section.
      rewrite Hline. by destruct (type line). }
  destruct (IH tc1 (next_section cs line) Hlines) as [tc' Hrest].
  exists tc'. unfold mbind, M_bind. by rewrite Hrest.
Qed.

(** X7: a file with nothing to translate.  When no line of the file is a
    key-value line with a nonempty value, an INI run that passes the checks
    sends no translate request and writes the file as it is, followed by one
    more line feed, to the derived path. *)
Theorem nothing_to_translate env options filePath fileContent :
  json options = false → ini options = true →
  existsSync env filePath = true →
  axios_get env (libretranslateUrl options) = Ok 200 →
  readFileSync env filePath = Ok fileContent →
  writeFileSync env (output_path env options filePath) (fileContent +:+ nl) = Ok () →
  Forall (λ line, stores line = None) (parseIniWithComments fileContent) →
  main env options filePath
  = ([ http_get (libretranslateUrl options);
       file_write (output_path env options filePath) (fileContent +:+ nl);
       console_log "Translation completed successfully!" ], 0).
Proof.
  intros Hj Hi Hex Hget Hread Hwrite Hall.
  unfold output_path in *. rewrite Hj in Hwrite.
  unfold main, main_try, processIniFile, checkLibreTranslateAccess.
  rewrite Hex, Hj, Hi, Hget, Hread. simpl.
  destruct (pass1_loop_quiet env (from options) (to options) (libretranslateUrl options)
              _ ∅ "" Hall) as [tc ->]. simpl.
  unfold parseIniWithComments in *. apply Forall_fmap in Hall.
  rewrite (pass2_loop_copies tc _ "" "" Hall).
  rewrite copied_lines_join; [|apply split_lines_nonempty].
  rewrite join_split, append_nil_l. simpl. by rewrite Hwrite.
Qed.

Lemma nothing_to_translate_witness :
  let fileContent := join_lines ["; settings"; "[server]"; "port ="; ""] in
  main (sample_env fileContent JNull) options_ini "f.ini"
  = ([ http_get "http://lt";
       file_write "./f_translated.ini" (fileContent +:+ nl);
       console_log "Translation completed successfully!" ], 0).
Proof.
  apply (nothing_to_translate
           (sample_env (join_lines ["; settings"; "[server]"; "port ="; ""]) JNull)
           options_ini "f.ini" (join_lines ["; settings"; "[server]"; "port ="; ""]));
    try reflexivity.
  repeat constructor.
Defined.

(** * Further properties of the translation client *)

(** X8: the probe is one GET and never throws; it answers true for the
    status 200 alone, so that a rejected request and any other status, 204
    included, both count as an unreachable service. *)
Theorem probe_is_one_get env url :
  checkLibreTranslateAccess env url
  = ([http_get url],
     Ok (match axios_get env url with
         | Ok status => bool_decide (status = 200)
         | Throw _ => false
         end)).
Proof.
  unfold checkLibreTranslateAccess. simpl. by destruct (axios_get env url).
Qed.

(** X9: one call of [translateText] is one log line and one POST of
    [{q, source, target}] to [apiUrl/translate], whatever the outcome: there
    is no retry.  A line on the error stream follows exactly when the call
    fails, and it carries the error that is thrown. *)
Theorem translateText_one_request env txt from to apiUrl :
  ∃ r tail,
    translateText env txt from to apiUrl
    = ([ console_log ("Translating text: " +:+ txt);
         http_post (apiUrl +:+ "/translate") {| q := txt; source := from; target := to |} ]
       ++ tail, r)
    ∧ match r with
      | Ok _ => tail = []
      | Throw e => tail = [console_error "Translation error:" (Some e)]
      end.
Proof.
  unfold translateText. simpl.
  destruct (axios_post env _ _) as [[| |s]|e]; simpl; by eexists _, _.
Qed.

Lemma translateText_posted env txt from to apiUrl :
  posted_texts (translateText env txt from to apiUrl).1 = [txt].
Proof.
  unfold translateText. simpl. by destruct (axios_post env _ _) as [[| |s]|e].
Qed.

Lemma posted_texts_app (t1 t2 : list event) :
  posted_texts (t1 ++ t2) = posted_texts t1 ++ posted_texts t2.
Proof. apply omap_app. Qed.

(** * Further properties of the first loop *)

Lemma bind_lift_ok {A B} (a : A) (f : A → M B) : lift (Ok a) ≫= f = f a.
Proof. apply (bind_ret_l a f). Qed.

Lemma pass1_loop_posted env from to apiUrl (lines : list IniLine) : ∀ tc cs t st',
  Forall classified lines →
  for_of (pass1_step env from to apiUrl) (tc, cs) lines = (t, Ok st') →
  posted_texts t = omap (λ line, snd <$> stores line) lines.
Proof.
  induction lines as [|line lines IH]; intros tc cs t st' Hcl Hrun.
  - by injection Hrun as <- _.
  - apply for_of_cons_ok in Hrun as (t1 & [tc1 cs1] & t2 & Hstep & Hrun & ->).
    inversion Hcl as [|? ? Hline Hlines]; subst.
    rewrite posted_texts_app, (IH _ _ _ _ Hlines Hrun). cbn [omap list_omap].
    destruct (stores line) as [[k v]|] eqn:Hs; simpl.
    + rewrite (pass1_step_store _ _ _ _ _ _ _ k v Hs) in Hstep.
      rewrite (stored_value_classified _ _ _ _ _ _ _ Hline Hs) in Hstep.
      apply bind_ok in Hstep as (t3 & x & t4 & Hx & Hstep & ->).
      apply bind_ok in Hstep as (t5 & tc2 & t6 & Hst & Hret & ->).
      injection Hret as <- _. injection Hst as <- _.
      pose proof (translateText_posted env v from to apiUrl) as Hp.
      rewrite Hx in Hp. simpl in Hp. by rewrite !app_nil_r, Hp.
    + destruct (decide (type line = section)) as [Ht|Ht].
      * rewrite pass1_step_header in Hstep; [|done]. by injection Hstep as <- _.
      * rewrite pass1_step_skip in Hstep; [|done..]. by injection Hstep as <- _.
Qed.

(** X10: what is sent to translation.  When [processIniFile] succeeds, the
    texts it has posted are the values of the key-value lines with a
    nonempty value, one request for each such line in the order of the file:
    nothing else is sent, nothing is batched, and a value that occurs twice is
    sent twice. *)
Theorem ini_requests_are_the_values env filePath from to apiUrl fileContent t tc :
  readFileSync env filePath = Ok fileContent →
  processIniFile env filePath from to apiUrl = (t, Ok tc) →
  posted_texts t = omap (λ line, snd <$> stores line) (parseIniWithComments fileContent).
Proof.
  intros Hread. unfold processIniFile. rewrite Hread. rewrite bind_lift_ok.
  intros ([tc' cs] & Hrun & _)%fmap_ok.
  eapply pass1_loop_posted; [apply parse_classified|done].
Qed.

Lemma ini_requests_are_the_values_witness :
  let fileContent := join_lines ["a=Yes"; "[s]"; "b = Yes"; "c="; "# d=No"] in
  posted_texts
    [ console_log "Translating text: Yes";
      http_post "http://lt/translate" {| q := "Yes"; source := "auto"; target := "fr" |};
      console_log "Translating text: Yes";
      http_post "http://lt/translate" {| q := "Yes"; source := "auto"; target := "fr" |} ]
  = omap (λ line, snd <$> stores line) (parseIniWithComments fileContent).
Proof.
  apply (ini_requests_are_the_values
           (sample_env (join_lines ["a=Yes"; "[s]"; "b = Yes"; "c="; "# d=No"]) JNull)
           "f.ini" "auto" "fr" "http://lt"
           (join_lines ["a=Yes"; "[s]"; "b = Yes"; "c="; "# d=No"]) _
           {[ "default" := {[ "a" := text "<Yes>" ]}; "s" := {[ "b" := text "<Yes>" ]} ]}).
  - reflexivity.
  - vm_compute. reflexivity.
Defined.

(** X11: [processIniFile] fails for two reasons only: the file cannot be
    read, or a translate call has failed, in which case the trace holds the
    line that [translateText] leaves on the error stream.  It never fails on
    a section that is missing from the table. *)
Theorem ini_failure_causes env filePath from to apiUrl t e :
  processIniFile env filePath from to apiUrl = (t, Throw e) →
  (readFileSync env filePath = Throw e ∧ t = [])
  ∨ Exists (λ ev, is_failed_call ev = true) t.
Proof.
  unfold processIniFile. destruct (readFileSync env filePath) as [fileContent|e'].
  - rewrite bind_lift_ok. intros Hrun. right.
    destruct (for_of _ _ _) as [t' [[tc cs]|e']] eqn:Hloop; [done|].
    injection Hrun as <- _. eapply pass1_loop_throws; [|done]. by left.
  - intros [= <- <-]. by left.
Qed.

Lemma ini_failure_causes_witness :
  (readFileSync (refusing_env "greeting=Hello" JNull) "f.ini"
     = Throw (AxiosError "Request failed with status code 500")
   ∧ [ console_log "Translating text: Hello";
       http_post "http://lt/translate" {| q := "Hello"; source := "auto"; target := "fr" |};
       console_error "Translation error:"
         (Some (AxiosError "Request failed with status code 500")) ] = [])
  ∨ Exists (λ ev, is_failed_call ev = true)
      [ console_log "Translating text: Hello";
        http_post "http://lt/translate" {| q := "Hello"; source := "auto"; target := "fr" |};
        console_error "Translation error:"
          (Some (AxiosError "Request failed with status code 500")) ].
Proof.
  apply (ini_failure_causes (refusing_env "greeting=Hello" JNull) "f.ini" "auto" "fr"
           "http://lt"). reflexivity.
Defined.

(** X12: once [processIniFile] has succeeded, the second loop of [main] over
    the same file cannot fail and does nothing but build the output: every
    section it looks up is in the table, and it ends in the section in which
    the first loop ended. *)
Theorem second_loop_cannot_fail env filePath from to apiUrl fileContent t tc :
  readFileSync env filePath = Ok fileContent →
  processIniFile env filePath from to apiUrl = (t, Ok tc) →
  ∃ out,
    for_of (pass2_step tc) ("", "") (parseIniWithComments fileContent)
    = ([], Ok (out, section_after "" (parseIniWithComments fileContent))).
Proof.
  intros Hread. unfold processIniFile. rewrite Hread, bind_lift_ok.
  intros ([tc' cs] & Hrun & ->)%fmap_ok. simpl.
  destruct (pass2_loop_total _ _ _ _ tc' _ _ _ _ _ _ "" Hrun ltac:(done)) as [out Hout].
  apply pass1_loop_ok in Hrun as [-> _]. by exists out.
Qed.

Lemma second_loop_cannot_fail_witness :
  let fileContent := join_lines ["[a]"; "x=1"; "[a]"; "y=2"] in
  ∃ out,
    for_of (pass2_step {[ "a" := {[ "y" := text "<2>" ]} ]}) ("", "")
      (parseIniWithComments fileContent)
    = ([], Ok (out, section_after "" (parseIniWithComments fileContent))).
Proof.
  apply (second_loop_cannot_fail
           (sample_env (join_lines ["[a]"; "x=1"; "[a]"; "y=2"]) JNull)
           "f.ini" "auto" "fr" "http://lt" (join_lines ["[a]"; "x=1"; "[a]"; "y=2"])
           [ console_log "Translating text: 1";
             http_post "http://lt/translate" {| q := "1"; source := "auto"; target := "fr" |};
             console_log "Translating text: 2";
             http_post "http://lt/translate" {| q := "2"; source := "auto"; target := "fr" |} ]).
  - reflexivity.
  - vm_compute. reflexivity.
Defined.

(** * Further properties of the JSON walker *)

Lemma text_leaves_array (items : list JsonValue) :
  text_leaves (JArray items) = concat (text_leaves <$> items).
Proof.
  cbn [text_leaves]. induction items as [|x items IH]; [done|].
  rewrite fmap_cons. cbn [concat]. by rewrite <- IH.
Qed.

Lemma text_leaves_object (entries : list (string * JsonValue)) :
  text_leaves (JObject entries) = concat ((λ e, text_leaves e.2) <$> entries).
Proof.
  cbn [text_leaves]. induction entries as [|[k x] entries IH]; [done|].
  rewrite fmap_cons. cbn [concat]. by rewrite <- IH.
Qed.

Lemma fmap_snd {A B} (f : A → B) (m : M A) :
  (f <$> m).2 = match m.2 with Ok a => Ok (f a) | Throw e => Throw e end.
Proof. by destruct m as [t [a|e]]. Qed.

Lemma bind_snd_ok {A B} (m : M A) (f : A → M B) (a : A) :
  m.2 = Ok a → (m ≫= f).2 = (f a).2.
Proof.
  destruct m as [t [a'|e]]; [|done]. simpl. intros [= ->].
  unfold mbind, M_bind. by destruct (f a).
Qed.

Lemma bind_snd_throw {A B} (m : M A) (f : A → M B) (e : error) :
  m.2 = Throw e → (m ≫= f).2 = Throw e.
Proof. destruct m as [t [a'|e']]; [done|]. simpl. by intros [= ->]. Qed.

Lemma Promise_all_snd_ok {A} (ps : list (M A)) (l : list A) :
  Forall2 (λ p a, p.2 = Ok a) ps l → (Promise_all ps).2 = Ok l.
Proof.
  induction 1 as [|[t r] a ps l Hp _ IH]; [done|]. cbn [Promise_all].
  destruct (Promise_all ps) as [t' rs]. simpl in *. by subst.
Qed.

Lemma Promise_all_snd_throw {A} (ps : list (M A)) :
  Exists (λ p, ∃ e, p.2 = Throw e) ps → ∃ e, (Promise_all ps).2 = Throw e.
Proof.
  induction 1 as [[t r] ps [e He]|[t r] ps _ [e IH]]; cbn [Promise_all];
    destruct (Promise_all ps) as [t' rs]; simpl in *; subst.
  - by eexists.
  - destruct r; by eexists.
Qed.

Lemma walker_result env from to apiUrl (g : string → jstext) (v : JsonValue) :
  plain_keys v →
  (∀ s, s ∈ text_leaves v → (translateText env s from to apiUrl).2 = Ok (g s)) →
  (translateJsonValue env v from to apiUrl).2 = Ok (map_text g v).
Proof.
  induction v as [| | | |s|items IH|entries IH] using JsonValue_nested_ind;
    intros Hplain Hg; try done.
  - cbn [translateJsonValue map_text text_leaves] in *.
    destruct (truthy (trim s)); [|done].
    rewrite fmap_snd, Hg; [done|by left].
  - cbn [translateJsonValue map_text]. rewrite fmap_snd.
    rewrite (Promise_all_snd_ok _ (map (map_text g) items)); [done|].
    apply plain_keys_array in Hplain. rewrite text_leaves_array in Hg.
    induction items as [|x items IHitems]; [constructor|].
    inversion IH as [|? ? IHx IHrest]; inversion Hplain; subst.
    constructor.
    + apply IHx; [done|]. intros s Hs. apply Hg. rewrite fmap_cons. cbn [concat].
      apply elem_of_app. by left.
    + apply IHitems; [done..|]. intros s Hs. apply Hg. rewrite fmap_cons. cbn [concat].
      apply elem_of_app. by right.
  - cbn [translateJsonValue map_text]. rewrite fmap_snd.
    apply plain_keys_object in Hplain as (Hnodup & Hproto & Hplain).
    rewrite text_leaves_object in Hg.
    enough (∀ acc, (∀ k, k ∈ entries.*1 → k ∉ acc.*1) →
              (object_loop env from to apiUrl entries acc).2
              = Ok (acc ++ map (λ e, let '(k, x) := e in (k, map_text g x)) entries)) as Hgen.
    { rewrite Hgen; [done|]. intros k _. apply not_elem_of_nil. }
    induction entries as [|[k x] entries IHentries]; intros acc Hfresh.
    + simpl. by rewrite app_nil_r.
    + inversion IH as [|? ? IHx IHrest]; inversion Hplain as [|? ? Hpx Hprest]; subst.
      rewrite fmap_cons in Hnodup, Hproto, Hfresh. cbn [fst] in *.
      assert (∀ s, s ∈ text_leaves x ++ concat ((λ e, text_leaves e.2) <$> entries) →
                   (translateText env s from to apiUrl).2 = Ok (g s)) as Hg'.
      { intros s Hs. apply Hg. by rewrite fmap_cons. }
      apply NoDup_cons in Hnodup as [Hk Hnodup].
      apply not_elem_of_cons in Hproto as [Hkp Hproto].
      rewrite (bind_snd_ok _ _ (map_text g x));
        [|apply IHx; [done|]; intros s Hs; apply Hg', elem_of_app; by left].
      rewrite property_assign_fresh; [|done|apply Hfresh; by left].
      rewrite IHentries; [by rewrite <- app_assoc|done..| |].
      * intros s Hs. apply Hg', elem_of_app. by right.
      * intros k' Hk'. rewrite fmap_app. intros [Hin|Hin]%elem_of_app.
        -- by apply (Hfresh k'); [right|].
        -- apply list_elem_of_singleton in Hin. simpl in Hin. by subst.
Qed.

(** X13: the walker against a service that answers.  On a value whose objects
    have distinct keys other than [__proto__], if the call for every string
    that is sent succeeds with the answer [g], the walk succeeds and returns
    the value in which each of these strings is replaced by its answer:
    arrays keep their length and order, objects their keys and order, and
    numbers, booleans, [null] and blank strings are untouched. *)
Theorem walker_maps_the_strings env from to apiUrl (g : string → jstext) (v : JsonValue) :
  plain_keys v →
  (∀ s, s ∈ text_leaves v → (translateText env s from to apiUrl).2 = Ok (g s)) →
  (translateJsonValue env v from to apiUrl).2 = Ok (map_text g v).
Proof. apply walker_result. Qed.

Lemma walker_maps_the_strings_witness :
  let v := JObject [ ("greeting", JString "hello"); ("count", JNumber 3);
                     ("tags", JArray [JString "bye"; JString "  "; JNull]);
                     ("nested", JObject [("msg", JString "bye")]) ] in
  (translateJsonValue (sample_env "" JNull) v "auto" "fr" "http://lt").2
  = Ok (JObject [ ("greeting", JString "<hello>"); ("count", JNumber 3);
                  ("tags", JArray [JString "<bye>"; JString "  "; JNull]);
                  ("nested", JObject [("msg", JString "<bye>")]) ]).
Proof.
  apply (walker_maps_the_strings (sample_env "" JNull) "auto" "fr" "http://lt"
           (λ s, text ("<" +:+ s +:+ ">"))
           (JObject [ ("greeting", JString "hello"); ("count", JNumber 3);
                      ("tags", JArray [JString "bye"; JString "  "; JNull]);
                      ("nested", JObject [("msg", JString "bye")]) ])).
  - simpl. split_and!; try done; by apply (bool_decide_unpack _).
  - intros s _. reflexivity.
Defined.

(** X14: one failed leaf fails the walk.  If the call for one of the strings
    that the walker sends fails, the walk of the whole value fails: no value
    is returned in which that string is left as it was or left out. *)
Theorem walker_fails_with_a_leaf env from to apiUrl (v : JsonValue) (s : string) (e : error) :
  s ∈ text_leaves v →
  (translateText env s from to apiUrl).2 = Throw e →
  ∃ e', (translateJsonValue env v from to apiUrl).2 = Throw e'.
Proof.
  intros Hs He. revert Hs.
  induction v as [| | | |s'|items IH|entries IH] using JsonValue_nested_ind;
    try (by intros ?%elem_of_nil).
  - cbn [translateJsonValue text_leaves]. destruct (truthy (trim s')); [|by intros ?%elem_of_nil].
    intros ->%list_elem_of_singleton. rewrite fmap_snd, He. by eexists.
  - rewrite text_leaves_array. intros Hs. cbn [translateJsonValue].
    enough (∃ e', (Promise_all (map (λ item, translateJsonValue env item from to apiUrl)
                                   items)).2 = Throw e') as [e' He'].
    { rewrite fmap_snd, He'. by eexists. }
    apply Promise_all_snd_throw.
    induction items as [|x items IHitems]; [by apply elem_of_nil in Hs|].
    inversion IH as [|? ? IHx IHrest]; subst.
    rewrite fmap_cons in Hs. cbn [concat] in Hs. apply elem_of_app in Hs as [Hs|Hs].
    + apply Exists_cons_hd. by apply IHx.
    + apply Exists_cons_tl. by apply IHitems.
  - rewrite text_leaves_object. intros Hs. cbn [translateJsonValue].
    enough (∀ acc, ∃ e', (object_loop env from to apiUrl entries acc).2 = Throw e') as Hgen.
    { destruct (Hgen []) as [e' He']. rewrite fmap_snd, He'. by eexists. }
    induction entries as [|[k x] entries IHentries]; intros acc;
      [by apply elem_of_nil in Hs|].
    inversion IH as [|? ? IHx IHrest]; subst.
    rewrite fmap_cons in Hs. cbn [concat snd] in Hs.
    destruct (translateJsonValue env x from to apiUrl) as [t [r|e1]] eqn:Hx.
    + rewrite (bind_snd_ok _ _ r); [|done].
      apply elem_of_app in Hs as [Hs|Hs].
      * destruct (IHx Hs) as [e' He']. simpl in He'. by rewrite Hx in He'.
      * by apply IHentries.
    + exists e1. by apply bind_snd_throw.
Qed.

Lemma walker_fails_with_a_leaf_witness :
  ∃ e', (translateJsonValue (refusing_env "" JNull)
           (JObject [("count", JNumber 3); ("tags", JArray [JNull; JString "bye"])])
           "auto" "fr" "http://lt").2 = Throw e'.
Proof.
  apply (walker_fails_with_a_leaf (refusing_env "" JNull) "auto" "fr" "http://lt"
           (JObject [("count", JNumber 3); ("tags", JArray [JNull; JString "bye"])])
           "bye" (AxiosError "Request failed with status code 500")).
  - by apply (bool_decide_unpack _).
  - reflexivity.
Defined.

Lemma bind_silent_ok {A B} (a : A) (f : A → M B) : (([], Ok a) : M A) ≫= f = f a.
Proof. apply (bind_ret_l a f). Qed.

Lemma Promise_all_silent {A} (xs : list A) (ps : list (M A)) :
  Forall2 (λ p x, p = ([], Ok x)) ps xs → Promise_all ps = ([], Ok xs).
Proof.
  induction 1 as [|p x ps xs -> _ IH]; [done|]. cbn [Promise_all]. by rewrite IH.
Qed.

(** X15: a value with nothing to translate.  When no string of the value is
    sent - every string leaf is empty or blank - and the objects have distinct
    keys other than [__proto__], the walker makes no request at all and
    returns the value as it is, whatever the service would do. *)
Theorem walker_without_text env from to apiUrl (v : JsonValue) :
  plain_keys v → text_leaves v = [] →
  translateJsonValue env v from to apiUrl = ([], Ok v).
Proof.
  induction v as [| | | |s|items IH|entries IH] using JsonValue_nested_ind;
    intros Hplain Hnone; try done.
  - cbn [translateJsonValue text_leaves] in *. by destruct (truthy (trim s)).
  - cbn [translateJsonValue]. apply plain_keys_array in Hplain.
    rewrite text_leaves_array in Hnone.
    rewrite (Promise_all_silent items); [done|].
    induction items as [|x items IHitems]; [constructor|].
    inversion IH as [|? ? IHx IHrest]; inversion Hplain; subst.
    rewrite fmap_cons in Hnone. cbn [concat] in Hnone.
    apply app_eq_nil in Hnone as [Hx Hrest]. constructor; auto.
  - cbn [translateJsonValue].
    apply plain_keys_object in Hplain as (Hnodup & Hproto & Hplain).
    rewrite text_leaves_object in Hnone.
    enough (∀ acc, (∀ k, k ∈ entries.*1 → k ∉ acc.*1) →
              object_loop env from to apiUrl entries acc = ([], Ok (acc ++ entries))) as Hgen.
    { rewrite Hgen; [done|]. intros k _. apply not_elem_of_nil. }
    induction entries as [|[k x] entries IHentries]; intros acc Hfresh.
    + simpl. by rewrite app_nil_r.
    + inversion IH as [|? ? IHx IHrest]; inversion Hplain as [|? ? Hpx Hprest]; subst.
      rewrite fmap_cons in Hnodup, Hproto, Hfresh. cbn [fst] in *.
      change (text_leaves x ++ concat ((λ e, text_leaves e.2) <$> entries) = []) in Hnone.
      apply NoDup_cons in Hnodup as [Hk Hnodup].
      apply not_elem_of_cons in Hproto as [Hkp Hproto].
      apply app_eq_nil in Hnone as [Hx Hrest].
      simpl in IHx. rewrite (IHx Hpx Hx), bind_silent_ok.
      rewrite property_assign_fresh; [|done|apply Hfresh; by left].
      rewrite IHentries; [by rewrite <- app_assoc|done..|].
      intros k' Hk'. rewrite fmap_app. intros [Hin|Hin]%elem_of_app.
      * by apply (Hfresh k'); [right|].
      * apply list_elem_of_singleton in Hin. simpl in Hin. by subst.
Qed.

Lemma walker_without_text_witness :
  translateJsonValue (refusing_env "" JNull)
    (JObject [("count", JNumber 3); ("blank", JString "  "); ("list", JArray [JBool true; JNull])])
    "auto" "fr" "http://lt"
  = ([], Ok (JObject [("count", JNumber 3); ("blank", JString "  ");
                      ("list", JArray [JBool true; JNull])])).
Proof.
  apply (walker_without_text (refusing_env "" JNull) "auto" "fr" "http://lt").
  - simpl. split_and!; try done; by apply (bool_decide_unpack _).
  - reflexivity.
Defined.

(** * Further properties of the orchestrator *)

(** X16: no request before the checks.  A run that has made any request has
    found the file and at least one format flag, and its first effect is the
    GET of the probe; a run that has posted a text to translate has moreover
    seen the probe answer 200. *)
Theorem requests_follow_the_checks env options filePath :
  let run := main env options filePath in
  (Exists (λ ev, is_request ev = true) run.1 →
   existsSync env filePath = true
   ∧ (json options = true ∨ ini options = true)
   ∧ head run.1 = Some (http_get (libretranslateUrl options)))
  ∧ (Exists (λ ev, is_Some (posted ev)) run.1 →
     axios_get env (libretranslateUrl options) = Ok 200).
Proof.
  cbn zeta. unfold main.
  destruct (checkLibreTranslateAccess_run env (libretranslateUrl options))
    as (ok & -> & Hprobe).
  split.
  - intros Hev. destruct (existsSync env filePath); simpl in *;
      [|exfalso; no_such_event Hev].
    destruct (json options), (ini options); simpl in *;
      try (exfalso; no_such_event Hev).
    all: split_and!; [done|auto|].
    all: destruct ok; simpl; [|done].
    all: by destruct (main_try env options filePath) as [t [[]|e]].
  - intros Hev. destruct ok; [by apply Hprobe|]. exfalso.
    destruct (existsSync env filePath), (negb (json options) && negb (ini options));
      simpl in *;
      repeat (apply Exists_cons in Hev as [[? [=]]|Hev]); by apply Exists_nil in Hev.
Qed.

Lemma requests_follow_the_checks_witness :
  let run := main (sample_env "greeting=Hello" JNull) options_ini "f.ini" in
  existsSync (sample_env "greeting=Hello" JNull) "f.ini" = true
  ∧ (json options_ini = true ∨ ini options_ini = true)
  ∧ head run.1 = Some (http_get "http://lt").
Proof.
  destruct (requests_follow_the_checks (sample_env "greeting=Hello" JNull) options_ini "f.ini")
    as [Hany _].
  apply Hany. vm_compute. by apply Exists_cons_hd.
Defined.

(** What the body of the [try] has done when it succeeds. *)
Lemma main_try_ok env options filePath t u :
  main_try env options filePath = (t, Ok u) →
  ∃ t0 data,
    t = t0 ++ [ file_write (output_path env options filePath) data;
                console_log "Translation completed successfully!" ]
    ∧ writeFileSync env (output_path env options filePath) data = Ok ()
    ∧ Forall (λ ev, is_write ev = false) t0
    ∧ Forall (λ ev, is_failed_call ev = false) t0
    ∧ if json options
      then ∃ v, processJsonFile env filePath (from options) (to options)
                  (libretranslateUrl options) = (t0, Ok v)
                ∧ v ≠ JUndefined ∧ data = JSON_stringify env v
      else ∃ fileContent tc cs,
             readFileSync env filePath = Ok fileContent
             ∧ processIniFile env filePath (from options) (to options)
                 (libretranslateUrl options) = (t0, Ok tc)
             ∧ for_of (pass2_step tc) ("", "") (parseIniWithComments fileContent)
               = ([], Ok (data, cs)).
Proof.
  unfold main_try, output_path. destruct (json options).
  - destruct (faithful_processJsonFile env filePath (from options) (to options)
                (libretranslateUrl options)) as [Hw Hf].
    destruct (processJsonFile _ _ _ _ _) as [t1 [v|e]]; simpl in *; [|done].
    specialize (Hf v eq_refl).
    destruct v; simpl; try done;
      match goal with
      | |- context [match writeFileSync env ?p ?d with _ => _ end] =>
          destruct (writeFileSync env p d) as [[]|e] eqn:Hwrite
      end; simpl; try done;
      intros [= <-]; eexists t1, _; rewrite ?app_nil_r;
      (split_and!; [by rewrite <- app_assoc|done|done|done|by eexists]).
  - destruct (readFileSync env filePath) as [fc|e]; simpl; [|done].
    destruct (faithful_processIniFile env filePath (from options) (to options)
                (libretranslateUrl options)) as [Hw Hf].
    destruct (processIniFile _ _ _ _ _) as [t1 [tc|e]]; simpl in *; [|done].
    specialize (Hf tc eq_refl).
    destruct (for_of (pass2_step tc) _ _) as [t2 [[out cs]|e]] eqn:Hloop; simpl; [|done].
    apply pass2_loop_section in Hloop as Hsilent. destruct Hsilent as [_ ->].
    match goal with
    | |- context [match writeFileSync env ?p ?d with _ => _ end] =>
        destruct (writeFileSync env p d) as [[]|e] eqn:Hwrite
    end; simpl; [|done].
    intros [= <-]. exists t1, out. rewrite ?app_nil_r.
    split_and!; [by rewrite <- app_assoc|done..|]. by exists fc, tc, cs.
Qed.

(** X17: a successful run.  A run that ends with status 0 has done, in this
    order: the GET of the probe; the requests of its pipeline, none of which
    failed; one write, accepted by the file system, to the derived path
    [<dir>/<base>_translated.<ext>]; and the success message.  What it wrote
    is the serialization of what the walker returned in JSON mode, and the
    output of the second loop over the table of the first in INI mode. *)
Theorem successful_run env options filePath :
  (main env options filePath).2 = 0 →
  ∃ t0 data,
    (main env options filePath).1
    = http_get (libretranslateUrl options)
        :: t0 ++ [ file_write (output_path env options filePath) data;
                   console_log "Translation completed successfully!" ]
    ∧ writeFileSync env (output_path env options filePath) data = Ok ()
    ∧ Forall (λ ev, is_write ev = false) t0
    ∧ Forall (λ ev, is_failed_call ev = false) t0
    ∧ if json options
      then ∃ v, processJsonFile env filePath (from options) (to options)
                  (libretranslateUrl options) = (t0, Ok v)
                ∧ v ≠ JUndefined ∧ data = JSON_stringify env v
      else ∃ fileContent tc cs,
             readFileSync env filePath = Ok fileContent
             ∧ processIniFile env filePath (from options) (to options)
                 (libretranslateUrl options) = (t0, Ok tc)
             ∧ for_of (pass2_step tc) ("", "") (parseIniWithComments fileContent)
               = ([], Ok (data, cs)).
Proof.
  unfold main.
  destruct (checkLibreTranslateAccess_run env (libretranslateUrl options))
    as (ok & -> & Hprobe).
  destruct (existsSync env filePath); simpl; [|done].
  destruct (negb (json options) && negb (ini options)); simpl; [done|].
  destruct ok; simpl; [|done].
  destruct (main_try env options filePath) as [t [[]|e]] eqn:Htry; simpl; [|done].
  intros _. destruct (main_try_ok _ _ _ _ _ Htry) as (t0 & data & -> & H).
  by exists t0, data.
Qed.

Lemma successful_run_witness :
  ∃ t0 data,
    (main (sample_env "greeting=Hello" JNull) options_ini "f.ini").1
    = http_get "http://lt"
        :: t0 ++ [ file_write "./f_translated.ini" data;
                   console_log "Translation completed successfully!" ]
    ∧ writeFileSync (sample_env "greeting=Hello" JNull) "./f_translated.ini" data = Ok ()
    ∧ Forall (λ ev, is_write ev = false) t0
    ∧ Forall (λ ev, is_failed_call ev = false) t0
    ∧ ∃ fileContent tc cs,
        readFileSync (sample_env "greeting=Hello" JNull) "f.ini" = Ok fileContent
        ∧ processIniFile (sample_env "greeting=Hello" JNull) "f.ini" "auto" "fr" "http://lt"
          = (t0, Ok tc)
        ∧ for_of (pass2_step tc) ("", "") (parseIniWithComments fileContent)
          = ([], Ok (data, cs)).
Proof.
  apply (successful_run (sample_env "greeting=Hello" JNull) options_ini "f.ini").
  reflexivity.
Defined.

(** X18: a JSON run from end to end.  With [--json], a file that exists and
    parses to a value whose objects have distinct keys other than
    [__proto__], a probe that answers 200, a service that answers [g] for
    every string that is sent and a write that the file system accepts, the
    run ends with status 0 and its last effects are the write of the
    serialization of the value with its strings replaced by their answers,
    to the derived path, and the success message.  The [--ini] flag plays no
    part. *)
Theorem json_run_end_to_end env options filePath raw parsed (g : string → jstext) :
  json options = true →
  existsSync env filePath = true →
  axios_get env (libretranslateUrl options) = Ok 200 →
  readFileSync env filePath = Ok raw →
  JSON_parse env raw = Ok parsed →
  plain_keys parsed →
  (∀ s, s ∈ text_leaves parsed →
        (translateText env s (from options) (to options) (libretranslateUrl options)).2
        = Ok (g s)) →
  map_text g parsed ≠ JUndefined →
  writeFileSync env (output_path env options filePath)
    (JSON_stringify env (map_text g parsed)) = Ok () →
  ∃ t0,
    main env options filePath
    = (http_get (libretranslateUrl options)
         :: t0 ++ [ file_write (output_path env options filePath)
                      (JSON_stringify env (map_text g parsed));
                    console_log "Translation completed successfully!" ], 0).
Proof.
  intros Hj Hex Hget Hread Hparse Hplain Hg Hdef Hwrite.
  pose proof (walker_result env _ _ _ g parsed Hplain Hg) as Hwalk.
  unfold output_path in *. rewrite Hj in Hwrite.
  unfold main, main_try, processJsonFile, checkLibreTranslateAccess.
  rewrite Hex, Hj, Hget, Hread, !bind_lift_ok, Hparse, bind_lift_ok. simpl.
  destruct (translateJsonValue env parsed _ _ _) as [t0 r]. simpl in Hwalk. subst r.
  exists t0. simpl. destruct (map_text g parsed) eqn:Hv; try done;
    rewrite Hwrite; simpl; by rewrite <- !app_assoc.
Qed.

Lemma json_run_end_to_end_witness :
  let parsed := JObject [ ("greeting", JString "hello"); ("count", JNumber 3);
                          ("nested", JObject [("msg", JString "bye")]) ] in
  ∃ t0,
    main (sample_env "" parsed) options_both "f.json"
    = (http_get "http://lt"
         :: t0 ++ [ file_write "./f_translated.json" "(json)";
                    console_log "Translation completed successfully!" ], 0).
Proof.
  apply (json_run_end_to_end
           (sample_env "" (JObject [ ("greeting", JString "hello"); ("count", JNumber 3);
                                     ("nested", JObject [("msg", JString "bye")]) ]))
           options_both "f.json" ""
           (JObject [ ("greeting", JString "hello"); ("count", JNumber 3);
                      ("nested", JObject [("msg", JString "bye")]) ])
           (λ s, text ("<" +:+ s +:+ ">")));
    try reflexivity; try done.
  - simpl. split_and!; try done; by apply (bool_decide_unpack _).
Defined.

(** X19: what is stored is what is printed.  When the turn of the first loop
    for a key-value line with a nonempty value succeeds (key other than
    [__proto__]), the turn of the second loop for the same line, run on the
    table as that turn left it, prints [key=] followed by the text that was
    stored, after a [[default]] header when no section was current; both
    turns leave the same current section, [default] in that case. *)
Theorem stored_then_printed env from to apiUrl tc cs line k v t tc' cs' out :
  stores line = Some (k, v) →
  k ≠ "__proto__" →
  pass1_step env from to apiUrl (tc, cs) line = (t, Ok (tc', cs')) →
  ∃ x,
    (stored_value env v from to apiUrl).2 = Ok x
    ∧ cs' = (if truthy cs then cs else "default")
    ∧ pass2_step tc' (out, cs) line
      = ([], Ok ((if truthy cs then out else out +:+ "[default]" +:+ nl)
                   +:+ k +:+ "=" +:+ jstext_text x +:+ nl, cs')).
Proof.
  intros Hs Hk Hstep.
  destruct (pass1_step_written _ _ _ _ _ _ _ _ _ _ _ _ Hs Hk Hstep) as (t1 & x & Hx & Hcell).
  apply pass1_step_ok in Hstep as (-> & _).
  exists x. split_and!.
  - by rewrite Hx.
  - unfold next_section. by rewrite (stores_key_line _ _ Hs), Hs.
  - rewrite (pass2_step_store _ _ _ _ _ _ Hs).
    by destruct (cell_property_text _ _ _ _ Hcell) as (o & -> & ->).
Qed.

Lemma stored_then_printed_witness :
  ∃ x,
    (stored_value (sample_env "" JNull) "Hello" "auto" "fr" "http://lt").2 = Ok x
    ∧ "default" = (if truthy "" then "" else "default")
    ∧ pass2_step {[ "default" := {[ "greeting" := text "<Hello>" ]} ]} ("", "")
        (classify "greeting=Hello")
      = ([], Ok ((if truthy "" then "" else "" +:+ "[default]" +:+ nl)
                   +:+ "greeting" +:+ "=" +:+ jstext_text x +:+ nl, "default")).
Proof.
  apply (stored_then_printed (sample_env "" JNull) "auto" "fr" "http://lt" ∅ ""
           (classify "greeting=Hello") "greeting" "Hello"
           [ console_log "Translating text: Hello";
             http_post "http://lt/translate"
               {| q := "Hello"; source := "auto"; target := "fr" |} ]).
  - reflexivity.
  - discriminate.
  - vm_compute. reflexivity.
Defined.

(** * No output on failure *)

(** ** A pipeline that succeeds has had every request answered *)

Section OnSuccess.

Context (bad : event → bool).

Lemma clean_ret {A} (a : A) : clean_on_success bad (mret a : M A).
Proof. intros _ _. constructor. Qed.

Lemma clean_lift {A} (r : result A) : clean_on_success bad (lift r).
Proof. intros _ _. constructor. Qed.

Lemma clean_bind {A B} (m : M A) (f : A → M B) :
  clean_on_success bad m → (∀ a, clean_on_success bad (f a)) →
  clean_on_success bad (m ≫= f).
Proof.
  intros Hm Hf. destruct m as [t [a|e]]; unfold mbind, M_bind; [|done].
  specialize (Hf a). destruct (f a) as [t' r]. intros b Hb. simpl in *.
  apply Forall_app. split; [by eapply Hm|by eapply Hf].
Qed.

Lemma clean_fmap {A B} (f : A → B) (m : M A) :
  clean_on_success bad m → clean_on_success bad (f <$> m).
Proof.
  intros Hm. destruct m as [t [a|e]]; unfold fmap, M_fmap; [|done].
  intros _ _. by eapply Hm.
Qed.

Lemma clean_Promise_all {A} (ps : list (M A)) :
  Forall (clean_on_success bad) ps → clean_on_success bad (Promise_all ps).
Proof.
  induction 1 as [|[t r] ps Hp _ IH]; [apply clean_ret|].
  cbn [Promise_all]. destruct (Promise_all ps) as [t' rs]. intros l Hl. simpl in *.
  destruct r as [a|e]; [|done]. destruct rs as [l'|e]; [|done].
  apply Forall_app. split; [by eapply Hp|by eapply IH].
Qed.

Lemma clean_for_of {S X} (body : S → X → M S) (xs : list X) :
  (∀ st x, clean_on_success bad (body st x)) → ∀ st, clean_on_success bad (for_of body st xs).
Proof.
  intros Hbody. induction xs as [|x xs IH]; intros st; [apply clean_ret|].
  cbn [for_of]. by apply clean_bind.
Qed.

End OnSuccess.

(** A call of [translateText] that succeeds has posted a request that was
    answered with a body. *)
Lemma answered_translateText env txt from to apiUrl :
  clean_on_success (is_rejected_request env) (translateText env txt from to apiUrl).
Proof.
  unfold translateText. simpl.
  destruct (axios_post env _ _) as [[| |s]|e] eqn:E; simpl; intros a [=];
    repeat constructor; simpl; by rewrite E.
Qed.

Lemma answered_pass1_step env from to apiUrl st line :
  clean_on_success (is_rejected_request env) (pass1_step env from to apiUrl st line).
Proof.
  destruct st as [tc cs]. destruct (stores line) as [[k v]|] eqn:Hs.
  - rewrite (pass1_step_store _ _ _ _ _ _ _ k v Hs). apply clean_bind.
    + unfold stored_value. destruct (truthy (trim v));
        [apply answered_translateText|apply clean_ret].
    + intros x. apply clean_bind; [apply clean_lift|]. intros. apply clean_ret.
  - destruct (decide (type line = section)) as [Ht|Ht].
    + rewrite pass1_step_header; [|done]. apply clean_ret.
    + rewrite pass1_step_skip; [|done..]. apply clean_ret.
Qed.

Lemma answered_processIniFile env filePath from to apiUrl :
  clean_on_success (is_rejected_request env) (processIniFile env filePath from to apiUrl).
Proof.
  unfold processIniFile. apply clean_bind; [apply clean_lift|].
  intros fc. apply clean_fmap, clean_for_of. intros. apply answered_pass1_step.
Qed.

Lemma answered_translateJsonValue env from to apiUrl (v : JsonValue) :
  clean_on_success (is_rejected_request env) (translateJsonValue env v from to apiUrl).
Proof.
  induction v as [| | | |s|items IH|entries IH] using JsonValue_nested_ind;
    try apply clean_ret.
  - cbn [translateJsonValue]. destruct (truthy (trim s)); [|apply clean_ret].
    apply clean_fmap, answered_translateText.
  - cbn [translateJsonValue]. apply clean_fmap, clean_Promise_all.
    by apply Forall_fmap.
  - cbn [translateJsonValue]. apply clean_fmap.
    generalize (@nil (string * JsonValue)).
    induction IH as [|[k x] es Hx _ IHes]; intros acc; [apply clean_ret|].
    apply clean_bind; [done|]. intros r. apply IHes.
Qed.

Lemma answered_processJsonFile env filePath from to apiUrl :
  clean_on_success (is_rejected_request env) (processJsonFile env filePath from to apiUrl).
Proof.
  unfold processJsonFile. apply clean_bind; [apply clean_lift|]. intros raw.
  apply clean_bind; [apply clean_lift|]. intros v. apply answered_translateJsonValue.
Qed.

(** The body of the [try] succeeds only when the file was read and every
    request was answered. *)
Lemma main_try_answered env options filePath t u :
  main_try env options filePath = (t, Ok u) →
  Forall (λ ev, is_rejected_request env ev = false) t
  ∧ ∃ fileContent, readFileSync env filePath = Ok fileContent.
Proof.
  intros Htry. destruct (main_try_ok _ _ _ _ _ Htry) as (t0 & data & -> & _ & _ & _ & Hmode).
  destruct (json options).
  - destruct Hmode as (v & Hrun & _). split.
    + apply Forall_app. split; [|by repeat constructor].
      pose proof (answered_processJsonFile env filePath (from options) (to options)
                    (libretranslateUrl options) v) as Hclean.
      rewrite Hrun in Hclean. by apply Hclean.
    + revert Hrun. unfold processJsonFile.
      destruct (readFileSync env filePath) as [raw|e]; [by eexists|done].
  - destruct Hmode as (fc & tc & cs & Hread & Hrun & _). split; [|by eexists].
    apply Forall_app. split; [|by repeat constructor].
    pose proof (answered_processIniFile env filePath (from options) (to options)
                  (libretranslateUrl options) tc) as Hclean.
    rewrite Hrun in Hclean. by apply Hclean.
Qed.

(** C9, refuted with both format flags set, which the specification counts
    as an ambiguous format and hence as a failure: the run is not refused, it
    writes its file and ends with status 0. *)
Lemma both_flags_write_and_succeed :
  json options_both = true ∧ ini options_both = true
  ∧ main (sample_env "" (JNumber 3)) options_both "f.json"
    = ([ http_get "http://lt";
         file_write "./f_translated.json" "(json)";
         console_log "Translation completed successfully!" ], 0).
Proof. split_and!; vm_compute; reflexivity. Qed.

(** C9, amended: a run ends with status 0 or 1, and one that ends with status
    1 has written no file.  Each of these ends the run with status 1: a
    missing file; the absence of both format flags; a probe that is rejected
    or answered with another status than 200; a file that cannot be read; in
    JSON mode, a text that does not parse; a translate request that the
    transport rejected or that was answered with a [null] body, wherever it
    occurs in the run, which is also the only case in which [translateText]
    leaves its line on the error stream.  A run that has written its file
    ends with status 0.  (A run with both format flags set is none of these
    cases: it proceeds as JSON.) *)
Theorem no_output_on_failure env options filePath :
  let run := main env options filePath in
  (run.2 = 0 ∨ run.2 = 1)
  ∧ (run.2 ≠ 0 → Forall (λ ev, is_write ev = false) run.1)
  ∧ (existsSync env filePath = false → run.2 = 1)
  ∧ (json options = false → ini options = false → run.2 = 1)
  ∧ (axios_get env (libretranslateUrl options) ≠ Ok 200 → run.2 = 1)
  ∧ (∀ e, readFileSync env filePath = Throw e → run.2 = 1)
  ∧ (∀ raw e, json options = true → readFileSync env filePath = Ok raw →
              JSON_parse env raw = Throw e → run.2 = 1)
  ∧ (Exists (λ ev, is_rejected_request env ev = true) run.1 → run.2 = 1)
  ∧ (Exists (λ ev, is_failed_call ev = true) run.1 → run.2 = 1)
  ∧ (Exists (λ ev, is_write ev = true) run.1 → run.2 = 0).
Proof.
  cbn zeta. unfold main.
  destruct (checkLibreTranslateAccess_run env (libretranslateUrl options))
    as (ok & -> & Hprobe).
  destruct (main_try_outcome env options filePath) as [Hthrow Hok].
  pose proof (main_try_answered env options filePath) as Hanswered.
  destruct (existsSync env filePath) eqn:Hex; simpl; [|by left + early_exit].
  destruct (negb (json options) && negb (ini options)) eqn:Hflags; simpl; [early_exit|].
  assert (json options = false → ini options = false → False) as Hsome.
  { intros Hj Hi. by rewrite Hj, Hi in Hflags. }
  destruct ok; simpl.
  2:{ assert (axios_get env (libretranslateUrl options) ≠ Ok 200) by (by intros ?%Hprobe).
      early_exit. }
  assert (axios_get env (libretranslateUrl options) = Ok 200) by (by apply Hprobe).
  destruct (main_try env options filePath) as [t [[]|e]] eqn:Htry; simpl in *.
  - specialize (Hok () eq_refl).
    destruct (Hanswered t () eq_refl) as [Hposts [fc Hread]]. split_and!.
    + by left.
    + done.
    + done.
    + intros Hj Hi. by destruct Hsome.
    + done.
    + intros e He. by rewrite He in Hread.
    + intros raw e Hj Hraw Hparse. revert Htry. unfold main_try, processJsonFile.
      rewrite Hj, Hraw. simpl. by rewrite Hparse.
    + intros [Hev|Hev]%Exists_cons; [done|].
      apply Exists_exists in Hev as (ev & Hev & Hbad).
      rewrite Forall_forall in Hposts. apply Hposts in Hev. congruence.
    + intros [Hev|Hev]%Exists_cons; [done|].
      apply Exists_exists in Hev as (ev & Hev & Hbad).
      rewrite Forall_forall in Hok. apply Hok in Hev. congruence.
    + done.
  - specialize (Hthrow e eq_refl). split_and!; try done.
    + by right.
    + intros _. apply Forall_cons. split; [done|]. trace_solver.
    + intros [Hev|Hev]%Exists_cons; [done|].
      apply Exists_app in Hev as [Hev|Hev].
      * apply Exists_exists in Hev as (ev & Hev & Hbad).
        rewrite Forall_forall in Hthrow. apply Hthrow in Hev. congruence.
      * no_such_event Hev.
Qed.

Lemma no_output_on_failure_witness :
  let run := main (refusing_env "greeting=Hello" JNull) options_ini "f.ini" in
  run.2 = 1 ∧ Forall (λ ev, is_write ev = false) run.1.
Proof.
  destruct (no_output_on_failure (refusing_env "greeting=Hello" JNull) options_ini "f.ini")
    as (_ & Hquiet & _ & _ & _ & _ & _ & Hrejected & _).
  assert ((main (refusing_env "greeting=Hello" JNull) options_ini "f.ini").2 = 1) as Hstatus.
  { apply Hrejected. vm_compute. do 2 apply Exists_cons_tl. by apply Exists_cons_hd. }
  split; [exact Hstatus|]. apply Hquiet. rewrite Hstatus. discriminate.
Defined.

(** The key [__proto__] on two lines of one section: each assignment of the
    first loop goes to the prototype setter and stores nothing, so the table
    keeps neither translation, and the second loop prints the prototype
    itself on both lines. *)
Example proto_key_lines_print_object :
  let fileContent := join_lines ["[a]"; "__proto__=x"; "__proto__=y"] in
  let env := sample_env fileContent JNull in
  (processIniFile env "f.ini" "auto" "fr" "http://lt").2 = Ok {[ "a" := ∅ ]}
  ∧ In (file_write "./f_translated.ini"
          (join_lines ["[a]"; "__proto__=[object Object]"; "__proto__=[object Object]"; ""]))
       (main env options_ini "f.ini").1.
Proof. split; vm_compute; [reflexivity|tauto]. Qed.
